(** * nornir.core: the session object, its shared state and the task dispatcher

    Shallow embedding of [nornir/core/__init__.py] (classes [Data] and
    [Nornir]) over an explicit object store, so that the aliasing between a
    session, its filtered copies, the shared [Data] object and the inventory
    back-reference is visible in the statements.

    The module calls into classes it does not define: [Inventory.filter],
    [Task], [TaskScheduler], [AggregatedResult], [Host.close_connections] and
    [Config].  Their models follow the specification and are marked as such;
    what an inventory makes of an assignment to its back-reference, on which
    the specification is silent, is a parameter.  [configure_logging] is
    modelled on its own: [Nornir_init] holds the statements of the
    constructor that write to the store, [Nornir_new] is the constructor
    call with the logging call and its [KeyError].

    A reference is read with the total lookup [!!!]; a statement that needs
    the object to exist says so ([session_valid], [inventory_wf]). *)

From stdpp Require Import gmap strings list fin_maps.
From Stdlib Require Import ZArith.

Local Open Scope string_scope.
Local Open Scope Z_scope.

(** Python object identities. *)
Abbreviation loc := positive (only parsing).

(** ** Python helpers *)

(** [x or y] on an optional integer: [None] and [0] are both falsy. *)
Definition py_or (x : option Z) (y : Z) : Z :=
  match x with
  | Some n => if n =? 0 then y else n
  | None => y
  end.

(** [d[k] = v] on an insertion-ordered dict: an existing key keeps its
    position, a new key goes last. *)
Fixpoint dict_setitem {V : Type} (k : string) (v : V) (d : list (string * V))
  : list (string * V) :=
  match d with
  | [] => [(k, v)]
  | (k', v') :: d' =>
      if decide (k = k') then (k, v) :: d' else (k', v') :: dict_setitem k v d'
  end.

Definition dict_keys {V : Type} (d : list (string * V)) : list string := d.*1.

(** ** Objects *)

(** A target of the inventory.  The dispatcher only ever touches the table of
    open connections (connection name to handle). *)
Record Host := mkHost {
  name : string;
  groups : list string;
  host_data : list (string * string);
  connections : gmap string nat;
}.

(** The two configuration values [Nornir.run] reads.  The module never writes
    to a configuration, so sessions hold it by value. *)
Record Config := mkConfig {
  num_workers : Z;
  raise_on_error : bool;
}.

(** [class Data]: [dry_run] is not set by [Data.__init__]; it is assigned by
    [Nornir.__init__], hence the option. *)
Record Data := mkData {
  failed_hosts : gset string;
  available_connections : list string;
  dry_run : option bool;
}.

(** The inventory: the ordered mapping from names to host objects and the
    back-reference to the session that owns it. *)
Record Inventory := mkInventory {
  hosts : list (string * loc);
  nornir : option loc;
}.

(** [class Nornir]: the attributes of [self.__dict__] other than the logger. *)
Record Nornir := mkNornir {
  data : loc;
  inventory : loc;
  config : Config;
}.

(** The object store, one table per class. *)
Record Heap := mkHeap {
  host_store : gmap loc Host;
  data_store : gmap loc Data;
  inventory_store : gmap loc Inventory;
  nornir_store : gmap loc Nornir;
}.

#[global] Instance Host_inhabited : Inhabited Host := populate (mkHost "" [] [] ∅).
#[global] Instance Config_inhabited : Inhabited Config := populate (mkConfig 0 false).
#[global] Instance Data_inhabited : Inhabited Data := populate (mkData ∅ [] None).
#[global] Instance Inventory_inhabited : Inhabited Inventory := populate (mkInventory [] None).
#[global] Instance Nornir_inhabited : Inhabited Nornir :=
  populate (mkNornir 1%positive 1%positive inhabitant).

Definition set_host_store (f : gmap loc Host → gmap loc Host) (h : Heap) : Heap :=
  mkHeap (f (host_store h)) (data_store h) (inventory_store h) (nornir_store h).
Definition set_data_store (f : gmap loc Data → gmap loc Data) (h : Heap) : Heap :=
  mkHeap (host_store h) (f (data_store h)) (inventory_store h) (nornir_store h).
Definition set_inventory_store (f : gmap loc Inventory → gmap loc Inventory) (h : Heap)
  : Heap :=
  mkHeap (host_store h) (data_store h) (f (inventory_store h)) (nornir_store h).
Definition set_nornir_store (f : gmap loc Nornir → gmap loc Nornir) (h : Heap) : Heap :=
  mkHeap (host_store h) (data_store h) (inventory_store h) (f (nornir_store h)).

Definition set_failed_hosts (f : gset string → gset string) (d : Data) : Data :=
  mkData (f (failed_hosts d)) (available_connections d) (dry_run d).
Definition set_available_connections (a : list string) (d : Data) : Data :=
  mkData (failed_hosts d) a (dry_run d).
Definition set_dry_run (b : bool) (d : Data) : Data :=
  mkData (failed_hosts d) (available_connections d) (Some b).
Definition set_inventory (i : loc) (n : Nornir) : Nornir :=
  mkNornir (data n) i (config n).
Definition set_connections (c : gmap string nat) (x : Host) : Host :=
  mkHost (name x) (groups x) (host_data x) c.

(** Modelled from the spec: the assignment [inventory.nornir = s].  The
    [Inventory] class is not part of this module.  The specification has the
    target-collection never mutated in place, so the targets are kept; it
    does not speak of the back-reference, so what the attribute reads after
    the assignment is left to [assign], a function of what it read before
    and of the session assigned (an inventory that stores what it is given,
    one that keeps a back-reference once it has one, ...). *)
Definition set_nornir (assign : option loc → loc → option loc) (s : loc)
    (i : Inventory) : Inventory :=
  mkInventory (hosts i) (assign (nornir i) s).

(** Attribute reads through a session reference. *)
Definition session_data (h : Heap) (s : loc) : Data :=
  data_store h !!! data (nornir_store h !!! s).
Definition session_inventory (h : Heap) (s : loc) : Inventory :=
  inventory_store h !!! inventory (nornir_store h !!! s).
Definition session_failed_hosts (h : Heap) (s : loc) : gset string :=
  failed_hosts (session_data h s).

(** ** class Data *)

Section WithDefaults.

(** What the module imports and the source does not define: the registry
    [connections.available_connections], the value of [Config()], and what
    an inventory makes of an assignment to its back-reference (see
    [set_nornir]). *)
Variable plugins_available_connections : list string.
Variable default_config : Config.
Variable inventory_assign_nornir : option loc → loc → option loc.

(** [Data.__init__] *)
Definition Data_init : Data :=
  mkData ∅ plugins_available_connections None.

(** [Data.recover_host]: [self.failed_hosts.discard(host)] *)
Definition recover_host (h : Heap) (d : loc) (host : string) : Heap :=
  set_data_store (alter (set_failed_hosts (λ f, f ∖ {[host]})) d) h.

(** [Data.reset_failed_hosts]: [self.failed_hosts = set()] *)
Definition reset_failed_hosts (h : Heap) (d : loc) : Heap :=
  set_data_store (alter (set_failed_hosts (λ _, ∅)) d) h.

(** ** class Nornir *)

(** [Nornir.__init__]: the statements that write to the store.  The call of
    [configure_logging] writes to none of its objects; it is modelled on its
    own further down, and [Nornir_new] is the constructor call with it and
    with the [KeyError] it can raise.  The new object's identity is fixed
    before the body runs. *)
Definition Nornir_init (h : Heap) (inventory_arg : loc) (dry_run_arg : bool)
    (config_arg : option Config) (available_connections_arg : option (list string))
    (data_arg : option loc) : Heap * loc :=
  let self := fresh (dom (nornir_store h)) in
  (* self.data = data or Data(): a Data object is truthy *)
  let '(h, d) :=
    match data_arg with
    | Some d => (h, d)
    | None =>
        let d := fresh (dom (data_store h)) in
        (set_data_store <[d := Data_init]> h, d)
    end in
  (* self.inventory = inventory; self.inventory.nornir = self *)
  let h :=
    set_inventory_store
      (alter (set_nornir inventory_assign_nornir self) inventory_arg) h in
  (* self.data.dry_run = dry_run *)
  let h := set_data_store (alter (set_dry_run dry_run_arg) d) h in
  (* self.config = config or Config(): a Config object is truthy; no
     config_file is given *)
  let c := match config_arg with Some c => c | None => default_config end in
  (* if available_connections is not None: ... *)
  let h :=
    match available_connections_arg with
    | Some a => set_data_store (alter (set_available_connections a) d) h
    | None => h
    end in
  (set_nornir_store <[self := mkNornir d inventory_arg c]> h, self).

(** The [dry_run] property; [None] is the [AttributeError] of a [Data] object
    that no constructor has touched. *)
Definition Nornir_dry_run (h : Heap) (s : loc) : option bool :=
  dry_run (session_data h s).

(** Modelled from the spec: the criteria of [Inventory.filter], which is not
    part of this module.  A target is kept when it matches all the criteria,
    each an exact attribute equality or a group membership; the name is an
    attribute like any other. *)
Inductive Criterion :=
  | AttrEq (key value : string)
  | InGroup (group : string).

Definition host_get (x : Host) (key : string) : option string :=
  if decide (key = "name") then Some (name x)
  else (list_to_map (host_data x) : gmap string string) !! key.

Definition criterion_holds (x : Host) (c : Criterion) : bool :=
  match c with
  | AttrEq key value => bool_decide (host_get x key = Some value)
  | InGroup group => bool_decide (group ∈ groups x)
  end.

Definition host_matches (criteria : list Criterion) (x : Host) : bool :=
  forallb (criterion_holds x) criteria.

(** Modelled from the spec: [Inventory.filter], which is not part of this
    module.  It produces a new inventory object whose ordered mapping holds
    the matching targets (the same host objects, in the same order) and
    leaves the inventory it is called on as it is.  The specification does
    not speak of the back-reference: the new inventory is given the one of
    the old, and no statement below reads it. *)
Definition Inventory_filter (h : Heap) (i : loc) (criteria : list Criterion)
  : Heap * loc :=
  let self := inventory_store h !!! i in
  let filtered :=
    filter (λ item, host_matches criteria (host_store h !!! item.2) = true)
           (hosts self) in
  let i' := fresh (dom (inventory_store h)) in
  (set_inventory_store <[i' := mkInventory filtered (nornir self)]> h, i').

(** [Nornir.filter]: the clone is built from [self.__dict__] (data, inventory
    and config), then its inventory is replaced by the filtered one. *)
Definition Nornir_filter (h : Heap) (s : loc) (criteria : list Criterion)
  : option (Heap * loc) :=
  match Nornir_dry_run h s with
  | None => None
  | Some dr =>
      let self := nornir_store h !!! s in
      (* b = Nornir(dry_run=self.dry_run, logger, data, inventory, config) *)
      let '(h, b) :=
        Nornir_init h (inventory self) dr (Some (config self)) None
                    (Some (data self)) in
      (* b.inventory = self.inventory.filter(...) *)
      let '(h, i) :=
        Inventory_filter h (inventory (nornir_store h !!! s)) criteria in
      Some (set_nornir_store (alter (set_inventory i) b) h, b)
  end.

End WithDefaults.

(** ** Tasks, results and the scheduler *)

(** What one execution of a work function against one target comes to: a
    return value with its "changed" flag, or a raised exception. *)
Inductive Outcome :=
  | Returns (value : option string) (is_changed : bool)
  | Raises (exc : string).

(** A work function, with its keyword arguments and the dry-run flag already
    bound: it reads the target and leaves a connections table and an
    outcome. *)
Definition work_function : Type := Host → gmap string nat * Outcome.

Record Result := mkResult {
  result_host : string;
  result : option string;
  exception : option string;
  changed : bool;
}.

(** [Result.failed] *)
Definition failed (r : Result) : bool :=
  match exception r with Some _ => true | None => false end.

(** An ordered mapping from target names to results. *)
Abbreviation AggregatedResult := (list (string * Result)).

(** Modelled from the spec: [Task.start], which is not part of this module.
    The exception of the work function is captured in the result. *)
Definition Task_start (task : work_function) (x : Host) : Host * Result :=
  let '(c, o) := task x in
  (set_connections c x,
   match o with
   | Returns v ch => mkResult (name x) v None ch
   | Raises e => mkResult (name x) None (Some e) false
   end).

(** Which of the two scheduler entry points ran, and the size of the pool. *)
Inductive Execution :=
  | Serial
  | Pooled (processes : Z).

Record Scheduled := mkScheduled {
  execution : Execution;
  scheduled_hosts : gmap loc Host;
  aggregated : AggregatedResult;
}.

(** Modelled from the spec: [TaskScheduler.run_serial], which is not part of
    this module.  The targets are visited in the order of the list, one
    execution each, and the results are assembled in that order. *)
Fixpoint serial_loop (task : work_function) (targets : list loc)
    (hs : gmap loc Host) (acc : AggregatedResult)
  : gmap loc Host * AggregatedResult :=
  match targets with
  | [] => (hs, acc)
  | t :: targets' =>
      let '(x, r) := Task_start task (hs !!! t) in
      serial_loop task targets' (<[t := x]> hs) (dict_setitem (name x) r acc)
  end.

Definition run_serial (task : work_function) (targets : list loc)
    (hs : gmap loc Host) : Scheduled :=
  let '(hs', res) := serial_loop task targets hs [] in
  mkScheduled Serial hs' res.

(** Modelled from the spec: [TaskScheduler.run_parallel], which is not part
    of this module.  One execution unit per target is submitted to a pool of
    [min(num_workers, len(targets))] workers, every unit working on its own
    target as it was at submission; after the join the results are assembled
    in submission order. *)
Definition submit (task : work_function) (targets : list loc)
    (hs : gmap loc Host) : list (loc * (Host * Result)) :=
  map (λ t, (t, Task_start task (hs !!! t))) targets.

Fixpoint collect (units : list (loc * (Host * Result))) (hs : gmap loc Host)
    (acc : AggregatedResult) : gmap loc Host * AggregatedResult :=
  match units with
  | [] => (hs, acc)
  | (t, (x, r)) :: units' =>
      collect units' (<[t := x]> hs) (dict_setitem (name x) r acc)
  end.

Definition run_parallel (task : work_function) (targets : list loc)
    (workers : Z) (hs : gmap loc Host) : Scheduled :=
  let '(hs', res) := collect (submit task targets hs) hs [] in
  mkScheduled (Pooled (Z.min workers (Z.of_nat (length targets)))) hs' res.

(** Modelled from the spec: the derived queries of [AggregatedResult], which
    is not part of this module. *)
Definition AggregatedResult_failed (r : AggregatedResult) : bool :=
  existsb (λ kv, failed kv.2) r.

Definition AggregatedResult_failed_hosts (r : AggregatedResult) : AggregatedResult :=
  filter (λ kv, failed kv.2 = true) r.

(** The aggregate execution error; it carries the whole result. *)
Inductive NornirExecutionError :=
  | ExecutionError (carried : AggregatedResult).

(** Modelled from the spec: [AggregatedResult.raise_on_error], which is not
    part of this module: it raises when any target failed. *)
Definition AggregatedResult_raise_on_error (r : AggregatedResult)
  : option NornirExecutionError :=
  if AggregatedResult_failed r then Some (ExecutionError r) else None.

(** ** Nornir.run *)

Inductive RunOutcome :=
  | Return (r : AggregatedResult)
  | Raise (e : NornirExecutionError).

Record RunOutput := mkRunOutput {
  out_heap : Heap;
  out_execution : Execution;
  out_outcome : RunOutcome;
}.

(** One of the two loops over [self.inventory.hosts.items()]. *)
Definition append_hosts (keep : string → bool) (items : list (string * loc))
    (run_on : list loc) : list loc :=
  fold_left (λ acc item, if keep item.1 then (acc ++ [item.2])%list else acc)
            items run_on.

(** The working list of [Nornir.run]. *)
Definition select_run_on (on_good on_failed : bool) (items : list (string * loc))
    (failed_set : gset string) : list loc :=
  let run_on := [] in
  let run_on :=
    if on_good
    then append_hosts (λ n, bool_decide (n ∉ failed_set)) items run_on
    else run_on in
  let run_on :=
    if on_failed
    then append_hosts (λ n, bool_decide (n ∈ failed_set)) items run_on
    else run_on in
  run_on.

Definition effective_num_workers (num_workers_arg : option Z) (c : Config) : Z :=
  py_or num_workers_arg (num_workers c).

Definition effective_raise_on_error (raise_on_error_arg : option bool) (c : Config)
  : bool :=
  match raise_on_error_arg with
  | Some b => b
  | None => raise_on_error c
  end.

Definition session_run_on (h : Heap) (s : loc) (on_good on_failed : bool) : list loc :=
  select_run_on on_good on_failed (hosts (session_inventory h s))
                (session_failed_hosts h s).

(** [Nornir.run]; logging is left out. *)
Definition Nornir_run (h : Heap) (s : loc) (task : work_function)
    (num_workers_arg : option Z) (raise_on_error_arg : option bool)
    (on_good on_failed : bool) : RunOutput :=
  let self := nornir_store h !!! s in
  let workers := effective_num_workers num_workers_arg (config self) in
  let run_on := session_run_on h s on_good on_failed in
  let sched :=
    if workers =? 1
    then run_serial task run_on (host_store h)
    else run_parallel task run_on workers (host_store h) in
  let h := set_host_store (λ _, scheduled_hosts sched) h in
  let res := aggregated sched in
  if effective_raise_on_error raise_on_error_arg (config self) then
    match AggregatedResult_raise_on_error res with
    | Some e => mkRunOutput h (execution sched) (Raise e)
    | None => mkRunOutput h (execution sched) (Return res)
    end
  else
    (* self.data.failed_hosts.update(result.failed_hosts.keys()) *)
    let newly := list_to_set (dict_keys (AggregatedResult_failed_hosts res)) in
    mkRunOutput
      (set_data_store (alter (set_failed_hosts (λ f, f ∪ newly)) (data self)) h)
      (execution sched) (Return res).

(** Modelled from the spec: [Host.close_connections], which is not part of
    this module, as the work function of [close_connections_task]: every open
    connection of the target is closed, the table is left empty, and nothing
    is returned. *)
Definition close_connections_task : work_function :=
  λ _, (∅, Returns None false).

(** [Nornir.close_connections]: the result of the run is dropped; an error
    raised by the run goes through. *)
Definition Nornir_close_connections (h : Heap) (s : loc) (on_good on_failed : bool)
  : Heap * option NornirExecutionError :=
  let out := Nornir_run h s close_connections_task None None on_good on_failed in
  (out_heap out,
   match out_outcome out with
   | Return _ => None
   | Raise e => Some e
   end).

(** [Nornir.__enter__] and [Nornir.__exit__]; the three exception arguments
    are not looked at. *)
Definition Nornir_enter (h : Heap) (s : loc) : Heap * loc := (h, s).

Definition Nornir_exit (h : Heap) (s : loc) (exc : option string)
  : Heap * option NornirExecutionError :=
  Nornir_close_connections h s true true.

(** ** Definitions used by the statements *)

(** The items of the inventory whose name is not, or is, in the failed set. *)
Definition good_items (items : list (string * loc)) (failed_set : gset string) :=
  filter (λ item : string * loc, item.1 ∉ failed_set) items.
Definition failed_items (items : list (string * loc)) (failed_set : gset string) :=
  filter (λ item : string * loc, item.1 ∈ failed_set) items.

(** The items the working list is made of: the good ones when [on_good],
    then the failed ones when [on_failed], each group in inventory order. *)
Definition selected_items (on_good on_failed : bool) (items : list (string * loc))
    (failed_set : gset string) : list (string * loc) :=
  ((if on_good then good_items items failed_set else []) ++
   (if on_failed then failed_items items failed_set else []))%list.

(** The names of the selected targets in the iteration order of the
    inventory. *)
Definition selected_in_inventory_order (on_good on_failed : bool)
    (items : list (string * loc)) (failed_set : gset string) : list string :=
  (filter (λ item : string * loc,
             (on_good = true ∧ item.1 ∉ failed_set)
             ∨ (on_failed = true ∧ item.1 ∈ failed_set)) items).*1.

(** The entry an execution unit of the pool contributes to the result. *)
Definition unit_entry (u : loc * (Host * Result)) : string * Result :=
  (name u.2.1, u.2.2).

(** The entry of one target in the result of a run. *)
Definition target_entry (task : work_function) (hs : gmap loc Host) (t : loc)
  : string * Result :=
  (name (hs !!! t), (Task_start task (hs !!! t)).2).

(** What the inventory guarantees of its ordered mapping: the keys are
    distinct (it is a dict) and every host object carries its key as its
    name. *)
Definition inventory_wf (hs : gmap loc Host) (items : list (string * loc)) : Prop :=
  NoDup items.*1 ∧ Forall (λ item, name (hs !!! item.2) = item.1) items.

#[global] Instance inventory_wf_dec hs items : Decision (inventory_wf hs items).
Proof. unfold inventory_wf. apply _. Defined.

(** The scheduler call of [Nornir.run], on its own. *)
Definition run_scheduled (h : Heap) (s : loc) (task : work_function)
    (num_workers_arg : option Z) (on_good on_failed : bool) : Scheduled :=
  let workers :=
    effective_num_workers num_workers_arg (config (nornir_store h !!! s)) in
  if workers =? 1
  then run_serial task (session_run_on h s on_good on_failed) (host_store h)
  else run_parallel task (session_run_on h s on_good on_failed) workers (host_store h).

(** The aggregated result a run leaves, returned or carried by the error. *)
Definition run_result (o : RunOutput) : AggregatedResult :=
  match out_outcome o with
  | Return r => r
  | Raise (ExecutionError r) => r
  end.

(** The names a run adds to the failed set when it does not raise. *)
Definition newly_failed (h : Heap) (s : loc) (task : work_function)
    (num_workers_arg : option Z) (on_good on_failed : bool) : gset string :=
  list_to_set
    (dict_keys (AggregatedResult_failed_hosts
                  (aggregated (run_scheduled h s task num_workers_arg
                                             on_good on_failed)))).

(** The session, its [Data] object and its inventory are objects of the
    store, and the [dry_run] attribute has been assigned, as it is by every
    constructor call. *)
Definition session_valid (h : Heap) (s : loc) : Prop :=
  is_Some (nornir_store h !! s)
  ∧ is_Some (data_store h !! data (nornir_store h !!! s))
  ∧ is_Some (inventory_store h !! inventory (nornir_store h !!! s))
  ∧ is_Some (dry_run (session_data h s)).

#[global] Instance session_valid_dec h s : Decision (session_valid h s).
Proof. unfold session_valid. apply _. Defined.

(** What every [run] and every [filter] keeps of the store: the sessions
    that exist stay as they are, the inventories that exist keep their
    targets, and the [Data] objects that exist keep their [dry_run]
    assignment and everything their failed sets hold. *)
Record heap_extends (h h' : Heap) : Prop := mkExtends {
  ext_nornir : ∀ s x, nornir_store h !! s = Some x → nornir_store h' !! s = Some x;
  ext_inventory : ∀ i x, inventory_store h !! i = Some x →
    ∃ x', inventory_store h' !! i = Some x' ∧ hosts x' = hosts x;
  ext_data : ∀ d x, data_store h !! d = Some x →
    ∃ x', data_store h' !! d = Some x'
          ∧ failed_hosts x ⊆ failed_hosts x'
          ∧ (is_Some (dry_run x) → is_Some (dry_run x'));
}.

(** ** Sequences of calls *)

(** A call on the store: a [run] or a [filter], with its arguments. *)
Inductive Op :=
  | OpRun (s : loc) (task : work_function) (num_workers_arg : option Z)
          (raise_on_error_arg : option bool) (on_good on_failed : bool)
  | OpFilter (s : loc) (criteria : list Criterion).

Section Calls.

(** What the module imports and the source does not define: the registry
    [connections.available_connections], the value of [Config()], and what
    an inventory makes of an assignment to its back-reference (see
    [set_nornir]). *)
Variable plugins_available_connections : list string.
Variable default_config : Config.
Variable inventory_assign_nornir : option loc → loc → option loc.

(** The store after a call; an error raised by the call is caught by the
    caller. *)
Definition apply_op (h : Heap) (op : Op) : Heap :=
  match op with
  | OpRun s task nw roe on_good on_failed =>
      out_heap (Nornir_run h s task nw roe on_good on_failed)
  | OpFilter s criteria =>
      match Nornir_filter plugins_available_connections default_config
                          inventory_assign_nornir h s criteria with
      | Some (h', _) => h'
      | None => h
      end
  end.

(** The store after a sequence of calls. *)
Definition apply_ops (h : Heap) (ops : list Op) : Heap := fold_left apply_op ops h.

End Calls.

(** ** Example store *)

(** Three targets; B has one open connection. *)
Definition example_hosts : gmap loc Host :=
  list_to_map [(1%positive, mkHost "A" [] [] ∅);
               (2%positive, mkHost "B" [] [] {["ssh" := 7%nat]});
               (3%positive, mkHost "C" ["core"] [("site", "x")] ∅)].

Definition example_items : list (string * loc) :=
  [("A", 1%positive); ("B", 2%positive); ("C", 3%positive)].

(** One session (object 1) over three targets, with a given failed set and
    configuration. *)
Definition example_heap (failed_set : gset string) (c : Config) : Heap :=
  mkHeap example_hosts
         {[1%positive := mkData failed_set [] (Some false)]}
         {[1%positive := mkInventory example_items (Some 1%positive)]}
         {[1%positive := mkNornir 1%positive 1%positive c]}.

(** Fails on the target named B, succeeds elsewhere. *)
Definition fails_on_B : work_function :=
  λ x, (connections x,
        if decide (name x = "B") then Raises "KeyError" else Returns (Some "ok") false).


Definition assign_kept : option loc → loc → option loc :=
  λ before s, match before with Some _ => before | None => Some s end.

(** Succeeds on every target. *)
Definition always_ok : work_function :=
  λ x, (connections x, Returns (Some "ok") false).

(** The configuration of the examples: 20 workers, no raising. *)
Definition example_config : Config := mkConfig 20 false.

(** Two filter calls on the session, a run on the first clone and a serial
    run on the session, all successful. *)
Definition example_ops : list Op :=
  [OpFilter 1%positive [AttrEq "name" "B"];
   OpRun 2%positive always_ok None None true true;
   OpFilter 1%positive [InGroup "core"];
   OpRun 1%positive always_ok (Some 1) None true true].

(** ** The rest of the module *)

(** [Nornir.get_connection_type]: [self.data.available_connections[connection]].
    The registry is held as the list of its keys, so the lookup yields the
    key it finds; [None] is the [KeyError] of a name that is not
    registered. *)
Definition get_connection_type (h : Heap) (s : loc) (connection : string)
  : option string :=
  if decide (connection ∈ available_connections (session_data h s))
  then Some connection
  else None.


(** ** Nornir.configure_logging *)

(** A value of a handler entry. *)
Inductive PyVal :=
  | VStr (s : string)
  | VInt (z : Z).

(** The entry of one logger: its level and the names of its handlers. *)
Record LoggerConfig := mkLoggerConfig {
  lg_level : string;
  lg_handlers : list string;
}.

(** The ["root"] entry; a dict supplied by the user may lack any key. *)
Record RootConfig := mkRootConfig {
  root_level : option string;
  root_handlers : option (list string);
  root_formatter : option string;
}.

(** The dict handed to [logging.config.dictConfig], with the keys the method
    reads or writes; a dict supplied by the user may lack any of them.
    Formatters map a name to a format string. *)
Record DictConfig := mkDictConfig {
  dc_version : option Z;
  dc_disable_existing_loggers : option bool;
  dc_formatters : option (gmap string string);
  dc_handlers : option (gmap string (gmap string PyVal));
  dc_loggers : option (gmap string LoggerConfig);
  dc_root : option RootConfig;
}.

(** The attributes of [self.config] the method reads. *)
Record LoggingConfig := mkLoggingConfig {
  logging_dictConfig : option DictConfig;
  logging_format : string;
  logging_loggers : list string;
  logging_level : string;
  logging_file : string;
  logging_to_console : bool;
}.

Inductive KeyError :=
  | MkKeyError (key : string).

(** Truthiness of a dict: the empty dict is falsy. *)
Definition dict_is_empty (d : DictConfig) : bool :=
  match dc_version d, dc_disable_existing_loggers d, dc_formatters d,
        dc_handlers d, dc_loggers d, dc_root d with
  | None, None, None, None, None, None => true
  | _, _, _, _, _, _ => false
  end.

(** Truthiness of a string: the empty string is falsy. *)
Definition str_truthy (s : string) : bool :=
  match s with
  | EmptyString => false
  | _ => true
  end.

(** [[] or handler names]: the list the loggers share. *)
Definition handlers_list (c : LoggingConfig) : list string :=
  ((if str_truthy (logging_file c) then ["info_file_handler"] else []) ++
   (if logging_to_console c then ["info_console"] else []))%list.

Definition info_file_handler (c : LoggingConfig) : gmap string PyVal :=
  {[ "class" := VStr "logging.handlers.RotatingFileHandler";
     "level" := VStr "NOTSET";
     "formatter" := VStr "simple";
     "filename" := VStr (logging_file c);
     "maxBytes" := VInt 10485760;
     "backupCount" := VInt 20;
     "encoding" := VStr "utf8" ]}.

Definition info_console : gmap string PyVal :=
  {[ "class" := VStr "logging.StreamHandler";
     "level" := VStr "NOTSET";
     "formatter" := VStr "simple";
     "stream" := VStr "ext://sys.stdout" ]}.

Section Logging.

(** [str.upper], which the source calls and does not define. *)
Variable upper : string → string.

(** The dict built when the configuration supplies none. *)
Definition default_dictConfig (c : LoggingConfig) : DictConfig :=
  mkDictConfig
    (Some 1) (Some false)
    (Some {[ "simple" := logging_format c ]})
    (Some ∅) (Some ∅)
    (Some (mkRootConfig
             (Some (match logging_loggers c with
                    | [] => upper (logging_level c)
                    | _ => "CRITICAL"
                    end))
             (Some [])
             (Some "simple"))).

(** [dictConfig["root"]["handlers"].append(name)] *)
Definition root_handlers_append (handler : string) (d : DictConfig)
  : KeyError + DictConfig :=
  match dc_root d with
  | None => inl (MkKeyError "root")
  | Some r =>
      match root_handlers r with
      | None => inl (MkKeyError "handlers")
      | Some hs =>
          inr (mkDictConfig (dc_version d) (dc_disable_existing_loggers d)
                 (dc_formatters d) (dc_handlers d) (dc_loggers d)
                 (Some (mkRootConfig (root_level r) (Some (hs ++ [handler])%list)
                                     (root_formatter r))))
      end
  end.

(** [dictConfig["handlers"][name] = entry] *)
Definition handlers_setitem (handler : string) (entry : gmap string PyVal)
    (d : DictConfig) : KeyError + DictConfig :=
  match dc_handlers d with
  | None => inl (MkKeyError "handlers")
  | Some m =>
      inr (mkDictConfig (dc_version d) (dc_disable_existing_loggers d)
             (dc_formatters d) (Some (<[handler := entry]> m)) (dc_loggers d)
             (dc_root d))
  end.

(** [dictConfig["loggers"][logger] = entry] *)
Definition loggers_setitem (logger : string) (entry : LoggerConfig)
    (d : DictConfig) : KeyError + DictConfig :=
  match dc_loggers d with
  | None => inl (MkKeyError "loggers")
  | Some m =>
      inr (mkDictConfig (dc_version d) (dc_disable_existing_loggers d)
             (dc_formatters d) (dc_handlers d) (Some (<[logger := entry]> m))
             (dc_root d))
  end.

(** The statements of the method that write to the dict, in order. *)
Definition logging_steps (c : LoggingConfig)
  : list (DictConfig → KeyError + DictConfig) :=
  ((if str_truthy (logging_file c)
    then [root_handlers_append "info_file_handler";
          handlers_setitem "info_file_handler" (info_file_handler c)]
    else []) ++
   (if logging_to_console c
    then [root_handlers_append "info_console";
          handlers_setitem "info_console" info_console]
    else []) ++
   map (λ logger,
          loggers_setitem logger
            (mkLoggerConfig (upper (logging_level c)) (handlers_list c)))
       (logging_loggers c))%list.

(** The statements run on the dict one after the other; the first
    [KeyError] stops them and leaves the dict as the earlier ones made it. *)
Fixpoint run_steps (steps : list (DictConfig → KeyError + DictConfig))
    (d : DictConfig) : DictConfig * option KeyError :=
  match steps with
  | [] => (d, None)
  | st :: steps' =>
      match st d with
      | inl e => (d, Some e)
      | inr d' => run_steps steps' d'
      end
  end.

(** [if dictConfig["root"]["handlers"]: logging.config.dictConfig(dictConfig)]:
    the dict that is handed to the logging system, if any.  What
    [logging.config.dictConfig] does with it, errors included, is not
    modelled. *)
Definition apply_dictConfig (d : DictConfig) : KeyError + option DictConfig :=
  match dc_root d with
  | None => inl (MkKeyError "root")
  | Some r =>
      match root_handlers r with
      | None => inl (MkKeyError "handlers")
      | Some [] => inr None
      | Some _ => inr (Some d)
      end
  end.

(** Whether the dict of the configuration is the one the method works on
    ([self.config.logging_dictConfig or {...}]). *)
Definition uses_own_dict (c : LoggingConfig) : bool :=
  match logging_dictConfig c with
  | Some d => negb (dict_is_empty d)
  | None => false
  end.

(** [Nornir.configure_logging].  The result is the configuration after the
    call (a dict supplied by the user is written to in place) and either the
    [KeyError] raised or the dict applied to the logging system, if one
    is. *)
Definition configure_logging (c : LoggingConfig)
  : LoggingConfig * (KeyError + option DictConfig) :=
  let dictConfig :=
    match logging_dictConfig c with
    | Some d => if dict_is_empty d then default_dictConfig c else d
    | None => default_dictConfig c
    end in
  let '(d, err) := run_steps (logging_steps c) dictConfig in
  let c' :=
    if uses_own_dict c
    then mkLoggingConfig (Some d) (logging_format c) (logging_loggers c)
                         (logging_level c) (logging_file c) (logging_to_console c)
    else c in
  (c', match err with
       | Some e => inl e
       | None => apply_dictConfig d
       end).

End Logging.

(** ** The constructor call and InitNornir *)

Section EntryPoint.

(** What the module imports and the source does not define: the registry
    [connections.available_connections], the value of [Config()], what an
    inventory makes of an assignment to its back-reference (see
    [set_nornir]), and [str.upper]. *)
Variable plugins_available_connections : list string.
Variable default_config : Config.
Variable inventory_assign_nornir : option loc → loc → option loc.
Variable upper : string → string.

(** The call [Nornir(...)] as a whole.  [Nornir_init] holds the statements of
    [__init__] that write to the store; [self.configure_logging()] comes
    after all of them but the assignment of the registry, and [logging]
    holds the logging attributes of the configuration in use.  When that
    call raises, the statements before it have run, the registry is not
    assigned, and the caller gets the [KeyError] and no session. *)
Definition Nornir_new (h : Heap) (inventory_arg : loc) (dry_run_arg : bool)
    (config_arg : option Config) (logging : LoggingConfig)
    (available_connections_arg : option (list string)) (data_arg : option loc)
  : Heap * LoggingConfig * (KeyError + loc) :=
  let '(logging', outcome) := configure_logging upper logging in
  match outcome with
  | inl e =>
      ((Nornir_init plugins_available_connections default_config
                    inventory_assign_nornir
                    h inventory_arg dry_run_arg config_arg None data_arg).1,
       logging', inl e)
  | inr _ =>
      let r :=
        Nornir_init plugins_available_connections default_config
                    inventory_assign_nornir
                    h inventory_arg dry_run_arg config_arg
                    available_connections_arg data_arg in
      (r.1, logging', inr r.2)
  end.

(** [InitNornir].  The configuration object (its two values [conf] and its
    logging attributes [logging]) and what the configured inventory class
    builds (the ordered mapping [inventory_hosts] over host objects of the
    store, with whatever back-reference [inventory_nornir] it starts with)
    are taken as given; the inventory is a new object. *)
Definition InitNornir (h : Heap) (conf : Config) (logging : LoggingConfig)
    (inventory_hosts : list (string * loc)) (inventory_nornir : option loc)
    (dry_run_arg : bool) : Heap * LoggingConfig * (KeyError + loc) :=
  (* inv = inv_class(transform_function=transform_function, ...) *)
  let inv := fresh (dom (inventory_store h)) in
  let h :=
    set_inventory_store <[inv := mkInventory inventory_hosts inventory_nornir]> h in
  (* return Nornir(inventory=inv, dry_run=dry_run, config=conf) *)
  Nornir_new h inv dry_run_arg (Some conf) logging None None.

End EntryPoint.

(** ** Definitions used by the statements on logging *)

(** The names under ["root"]["handlers"], when both keys are there. *)
Definition root_handlers_of (d : DictConfig) : option (list string) :=
  match dc_root d with
  | Some r => root_handlers r
  | None => None
  end.

(** Which of the keys the method goes through a dict has: the handler names
    under the root, the handlers, the loggers. *)
Definition keys_present (d : DictConfig) : bool * bool * bool :=
  (bool_decide (is_Some (root_handlers_of d)),
   bool_decide (is_Some (dc_handlers d)),
   bool_decide (is_Some (dc_loggers d))).

(** The three statements that write to the dict. *)
Definition is_dict_write (st : DictConfig → KeyError + DictConfig) : Prop :=
  (∃ n, st = root_handlers_append n)
  ∨ (∃ n e, st = handlers_setitem n e)
  ∨ (∃ n e, st = loggers_setitem n e).

(** The configuration after [n] calls of [configure_logging]. *)
Definition configure_logging_times (upper : string → string) (n : nat)
    (c : LoggingConfig) : LoggingConfig :=
  Nat.iter n (λ c, (configure_logging upper c).1) c.

(** The handler entries and the logger entries the method writes. *)
Definition add_handlers (c : LoggingConfig) (m : gmap string (gmap string PyVal))
  : gmap string (gmap string PyVal) :=
  let m :=
    if str_truthy (logging_file c)
    then <["info_file_handler" := info_file_handler c]> m
    else m in
  if logging_to_console c then <["info_console" := info_console]> m else m.

Definition add_loggers (upper : string → string) (c : LoggingConfig)
    (m : gmap string LoggerConfig) : gmap string LoggerConfig :=
  fold_left
    (λ m logger,
       <[logger := mkLoggerConfig (upper (logging_level c)) (handlers_list c)]> m)
    (logging_loggers c) m.

(** A configuration for the examples: a log file, no console, one logger. *)
Definition example_logging (d : option DictConfig) : LoggingConfig :=
  mkLoggingConfig d "%(message)s" ["nornir"] "debug" "nornir.log" false.

(** A dict a user may supply: complete, with the formatter the handlers of
    the method name and one handler of its own. *)
Definition example_user_dict : DictConfig :=
  mkDictConfig (Some 1) None (Some {[ "simple" := "%(message)s" ]})
    (Some {[ "mine" := {[ "class" := VStr "logging.NullHandler" ]} ]})
    (Some ∅)
    (Some (mkRootConfig (Some "INFO") (Some ["mine"]) None)).

(** An upper-casing function for the examples, on the letters of "debug". *)
Definition example_upper (s : string) : string :=
  if decide (s = "debug") then "DEBUG" else s.

(** * Properties *)

(** ** The ordered dict *)

Lemma dict_keys_setitem {V : Type} (k : string) (v : V) (d : list (string * V)) :
  dict_keys (dict_setitem k v d) =
  if decide (k ∈ dict_keys d) then dict_keys d else (dict_keys d ++ [k])%list.
Proof.
  unfold dict_keys. induction d as [|[k' v'] d IH].
  - cbn [dict_setitem fmap list_fmap]. case_decide; [set_solver | done].
  - cbn [dict_setitem]. destruct (decide (k = k')) as [->|Hne].
    + rewrite decide_True by set_solver. done.
    + rewrite fmap_cons, IH. cbn [fst].
      destruct (decide (k ∈ d.*1)).
      * rewrite decide_True by set_solver. done.
      * rewrite decide_False by set_solver. done.
Qed.

Lemma dict_setitem_fresh {V : Type} (k : string) (v : V) (d : list (string * V)) :
  k ∉ dict_keys d → dict_setitem k v d = (d ++ [(k, v)])%list.
Proof.
  unfold dict_keys. induction d as [|[k' v'] d IH]; intros Hk; [done|].
  cbn [dict_setitem]. rewrite fmap_cons in Hk. cbn [fst] in Hk.
  rewrite decide_False by set_solver. rewrite IH by set_solver. done.
Qed.

(** ** The working list *)

Lemma append_hosts_filter keep items run_on :
  append_hosts keep items run_on =
  (run_on ++ (filter (λ item, keep item.1 = true) items).*2)%list.
Proof.
  unfold append_hosts. revert run_on.
  induction items as [|[n l] items IH]; intros run_on; simpl.
  - by rewrite app_nil_r.
  - rewrite IH, filter_cons. simpl. destruct (keep n) eqn:Hk; case_decide; try done.
    simpl. by rewrite <- app_assoc.
Qed.

Lemma select_run_on_items on_good on_failed items failed_set :
  select_run_on on_good on_failed items failed_set =
  (selected_items on_good on_failed items failed_set).*2.
Proof.
  unfold select_run_on, selected_items, good_items, failed_items.
  destruct on_good, on_failed; rewrite ?append_hosts_filter; simpl;
    rewrite ?fmap_app, ?app_nil_r; try done.
  all: repeat f_equal; apply list_filter_iff; intros [n l]; simpl;
    by rewrite bool_decide_eq_true.
Qed.

(** ** The scheduler *)

Lemma Task_start_name task x : name (Task_start task x).1 = name x.
Proof. unfold Task_start. by destruct (task x) as [c []]. Qed.

Lemma submit_insert_ne task targets hs t x :
  t ∉ targets → submit task targets (<[t := x]> hs) = submit task targets hs.
Proof.
  intros Ht. unfold submit. apply map_ext_in. intros t' Hin%list_elem_of_In.
  rewrite lookup_total_insert_ne; [done | set_solver].
Qed.

(** On targets that are pairwise distinct objects, the serial loop and the
    pool produce the same hosts and the same result. *)
Lemma serial_loop_collect task targets hs acc :
  NoDup targets →
  serial_loop task targets hs acc = collect (submit task targets hs) hs acc.
Proof.
  intros Hnd. revert hs acc.
  induction Hnd as [|t targets Ht Hnd IH]; intros hs acc; [done|].
  cbn [serial_loop submit map collect].
  destruct (Task_start task (hs !!! t)) as [x r] eqn:Hs.
  rewrite IH. fold (submit task targets (<[t:=x]> hs)).
  fold (submit task targets hs). by rewrite submit_insert_ne.
Qed.

Lemma collect_entries units hs acc :
  NoDup (dict_keys acc ++ (unit_entry <$> units).*1) →
  (collect units hs acc).2 = (acc ++ (unit_entry <$> units))%list.
Proof.
  revert hs acc. induction units as [|[t [x r]] units IH]; intros hs acc Hnd.
  - by rewrite app_nil_r.
  - cbn [collect]. rewrite !fmap_cons in Hnd. cbn in Hnd.
    apply NoDup_app in Hnd as (Hacc & Hdisj & Hnd').
    apply NoDup_cons in Hnd' as [Hx Hnd'].
    rewrite IH.
    + rewrite dict_setitem_fresh; [by rewrite <- app_assoc|].
      intros Hin. apply (Hdisj _ Hin). set_solver.
    + rewrite dict_setitem_fresh by (intros Hin; apply (Hdisj _ Hin); set_solver).
      unfold dict_keys. rewrite fmap_app. cbn. rewrite <- app_assoc. cbn.
      apply NoDup_app. split_and!; [done | | by apply NoDup_cons].
      intros k Hk. apply Hdisj. done.
Qed.

Lemma submit_entries task targets hs :
  (unit_entry <$> submit task targets hs).*1 = (λ t, name (hs !!! t)) <$> targets.
Proof.
  unfold submit. induction targets as [|t targets IH]; [done|].
  cbn. rewrite Task_start_name. f_equal. apply IH.
Qed.

(** The result of either entry point, on distinct targets with distinct
    names: one entry per target, in the order of the list. *)
Lemma scheduler_result task targets workers hs :
  NoDup ((λ t, name (hs !!! t)) <$> targets) →
  aggregated (run_serial task targets hs) = unit_entry <$> submit task targets hs
  ∧ aggregated (run_parallel task targets workers hs)
    = unit_entry <$> submit task targets hs.
Proof.
  intros Hnd. assert (NoDup targets) as Hnd' by (by eapply NoDup_fmap_1).
  unfold run_serial, run_parallel. rewrite serial_loop_collect by done.
  pose proof (collect_entries (submit task targets hs) hs []) as Hc.
  destruct (collect (submit task targets hs) hs []) as [hs' res].
  cbn in *. rewrite Hc; [done|]. by rewrite submit_entries.
Qed.

(** ** Well-formed inventories *)

Lemma inventory_wf_names (hs : gmap loc Host) (items sub : list (string * loc)) :
  (∀ item, item ∈ items → name (hs !!! item.2) = item.1) →
  sub ⊆ items →
  (λ t, name (hs !!! t)) <$> sub.*2 = sub.*1.
Proof.
  intros Hn Hsub. induction sub as [|item sub IH]; [done|].
  cbn. rewrite Hn by set_solver. f_equal. apply IH. set_solver.
Qed.

Lemma selected_items_NoDup on_good on_failed (items : list (string * loc))
    (failed_set : gset string) :
  NoDup items.*1 →
  NoDup (selected_items on_good on_failed items failed_set).*1.
Proof.
  intros Hnd. unfold selected_items. rewrite fmap_app. apply NoDup_app. split_and!.
  - destruct on_good; [|constructor].
    eapply sublist_NoDup; [done | apply fmap_sublist, sublist_filter].
  - intros n Hg Hf. destruct on_good, on_failed; try set_solver.
    apply list_elem_of_fmap in Hg as ([n1 l1] & -> & Hg).
    apply list_elem_of_fmap in Hf as ([n2 l2] & Heq & Hf).
    apply list_elem_of_filter in Hg as [Hg _].
    apply list_elem_of_filter in Hf as [Hf _]. cbn in *. by subst.
  - destruct on_failed; [|constructor].
    eapply sublist_NoDup; [done | apply fmap_sublist, sublist_filter].
Qed.

Lemma selected_items_subseteq on_good on_failed (items : list (string * loc))
    (failed_set : gset string) :
  selected_items on_good on_failed items failed_set ⊆ items.
Proof.
  unfold selected_items. intros item [Hin|Hin]%elem_of_app.
  - destruct on_good; [|set_solver]. by apply list_elem_of_filter in Hin as [_ ?].
  - destruct on_failed; [|set_solver]. by apply list_elem_of_filter in Hin as [_ ?].
Qed.

Lemma run_on_names (hs : gmap loc Host) on_good on_failed items failed_set :
  inventory_wf hs items →
  (λ t, name (hs !!! t)) <$> select_run_on on_good on_failed items failed_set
  = (selected_items on_good on_failed items failed_set).*1.
Proof.
  intros [_ Hn]. rewrite Forall_forall in Hn. rewrite select_run_on_items.
  apply (inventory_wf_names hs items); [done | apply selected_items_subseteq].
Qed.

(** C5.  In a well-formed inventory the working list of [run] holds every
    target at most once, also with both flags set; a target of the inventory
    is in it exactly when it is not in the failed set and [on_good] is set,
    or is in the failed set and [on_failed] is set; and nothing else is in
    it. *)
Theorem run_on_set_semantics (h : Heap) (s : loc) (on_good on_failed : bool) :
  inventory_wf (host_store h) (hosts (session_inventory h s)) →
  NoDup (session_run_on h s on_good on_failed)
  ∧ (∀ n l, (n, l) ∈ hosts (session_inventory h s) →
       l ∈ session_run_on h s on_good on_failed ↔
       (on_good = true ∧ n ∉ session_failed_hosts h s)
       ∨ (on_failed = true ∧ n ∈ session_failed_hosts h s))
  ∧ (∀ l, l ∈ session_run_on h s on_good on_failed →
       ∃ n, (n, l) ∈ hosts (session_inventory h s)).
Proof.
  intros Hwf. unfold session_run_on.
  set (items := hosts (session_inventory h s)) in *.
  set (fs := session_failed_hosts h s).
  pose proof (run_on_names (host_store h) on_good on_failed items fs Hwf) as Hnames.
  destruct Hwf as [Hnd Hn]. rewrite Forall_forall in Hn.
  pose proof (selected_items_NoDup on_good on_failed items fs Hnd) as Hsel.
  split_and!.
  - eapply (NoDup_fmap_1 (λ t, name (host_store h !!! t))). by rewrite Hnames.
  - intros n l Hin. rewrite select_run_on_items. split.
    + intros ([n' l'] & Heq & Hin')%list_elem_of_fmap. cbn in Heq. subst l'.
      assert (n' = n) as ->.
      { pose proof (selected_items_subseteq on_good on_failed items fs _ Hin') as Hi.
        pose proof (Hn _ Hi) as H1. pose proof (Hn _ Hin) as H2. cbn in H1, H2. congruence. }
      unfold selected_items in Hin'. apply elem_of_app in Hin' as [Hg|Hf].
      * destruct on_good; [|set_solver].
        apply list_elem_of_filter in Hg as [Hg _]. left. done.
      * destruct on_failed; [|set_solver].
        apply list_elem_of_filter in Hf as [Hf _]. right. done.
    + intros [[-> Hg]|[-> Hf]]; apply list_elem_of_fmap; exists (n, l);
        (split; [done|]); unfold selected_items; apply elem_of_app; [left|right];
        by apply list_elem_of_filter.
  - intros l. rewrite select_run_on_items.
    intros ([n' l'] & -> & Hin')%list_elem_of_fmap. exists n'.
    by apply (selected_items_subseteq on_good on_failed items fs).
Qed.

(** ** The result of a run *)

Lemma Nornir_run_result h s task nw roe on_good on_failed :
  run_result (Nornir_run h s task nw roe on_good on_failed)
  = aggregated (run_scheduled h s task nw on_good on_failed).
Proof.
  unfold Nornir_run, run_scheduled, run_result, AggregatedResult_raise_on_error.
  destruct (effective_raise_on_error _ _); [|done].
  by destruct (AggregatedResult_failed _).
Qed.

Lemma Nornir_run_execution h s task nw roe on_good on_failed :
  out_execution (Nornir_run h s task nw roe on_good on_failed)
  = execution (run_scheduled h s task nw on_good on_failed).
Proof.
  unfold Nornir_run, run_scheduled, AggregatedResult_raise_on_error.
  destruct (effective_raise_on_error _ _); [|done].
  by destruct (AggregatedResult_failed _).
Qed.

Lemma selected_items_Permutation on_good on_failed items failed_set :
  (selected_items on_good on_failed items failed_set).*1
  ≡ₚ selected_in_inventory_order on_good on_failed items failed_set.
Proof.
  unfold selected_items, selected_in_inventory_order, good_items, failed_items.
  induction items as [|[n l] items IH].
  - by destruct on_good, on_failed.
  - rewrite !filter_cons. cbn [fst].
    destruct on_good, on_failed; cbn [app fmap list_fmap] in *;
      repeat case_decide; try naive_solver; cbn; rewrite ?fmap_app in *; cbn.
    all: try (by rewrite IH).
    rewrite <- IH. by rewrite Permutation_middle.
Qed.

Lemma selected_items_one_flag on_good on_failed items failed_set :
  on_good && on_failed = false →
  (selected_items on_good on_failed items failed_set).*1
  = selected_in_inventory_order on_good on_failed items failed_set.
Proof.
  unfold selected_items, selected_in_inventory_order, good_items, failed_items.
  intros Hf. destruct on_good, on_failed; try done; rewrite ?app_nil_r; cbn [app].
  - f_equal. apply list_filter_iff. naive_solver.
  - f_equal. apply list_filter_iff. naive_solver.
  - induction items as [|item items IH]; [done|].
    rewrite filter_cons. case_decide; [naive_solver | done].
Qed.

Lemma unit_entry_submit task targets hs :
  unit_entry <$> submit task targets hs = target_entry task hs <$> targets.
Proof.
  unfold submit. induction targets as [|t targets IH]; [done|].
  cbn. rewrite <- IH. unfold unit_entry at 1, target_entry. cbn.
  by rewrite Task_start_name.
Qed.

Lemma run_scheduled_result h s task nw on_good on_failed :
  inventory_wf (host_store h) (hosts (session_inventory h s)) →
  aggregated (run_scheduled h s task nw on_good on_failed)
  = target_entry task (host_store h) <$> session_run_on h s on_good on_failed.
Proof.
  intros Hwf. unfold run_scheduled. rewrite <- unit_entry_submit.
  destruct (scheduler_result task (session_run_on h s on_good on_failed)
              (effective_num_workers nw (config (nornir_store h !!! s)))
              (host_store h)) as [Hs Hp].
  { unfold session_run_on. rewrite (run_on_names _ _ _ _ _ Hwf).
    apply selected_items_NoDup, Hwf. }
  by destruct (_ =? 1).
Qed.

(** C1, as amended.  In a well-formed inventory, whatever the worker count,
    the raise-on-error policy and the two flags, the result of [run] is the
    list of the entries of the working list, one per target and in its order:
    its keys are the names of the good targets in inventory order followed by
    the names of the failed targets in inventory order.  The keys are
    distinct, they are a rearrangement of the names of the selected targets,
    and with at most one of the two flags set they are in the iteration order
    of the inventory. *)
Theorem run_result_order (h : Heap) (s : loc) (task : work_function)
    (num_workers_arg : option Z) (raise_on_error_arg : option bool)
    (on_good on_failed : bool) :
  inventory_wf (host_store h) (hosts (session_inventory h s)) →
  let res :=
    run_result (Nornir_run h s task num_workers_arg raise_on_error_arg
                           on_good on_failed) in
  let items := hosts (session_inventory h s) in
  let fs := session_failed_hosts h s in
  res = target_entry task (host_store h) <$> session_run_on h s on_good on_failed
  ∧ length res = length (session_run_on h s on_good on_failed)
  ∧ dict_keys res = (selected_items on_good on_failed items fs).*1
  ∧ NoDup (dict_keys res)
  ∧ dict_keys res ≡ₚ selected_in_inventory_order on_good on_failed items fs
  ∧ (on_good && on_failed = false →
     dict_keys res = selected_in_inventory_order on_good on_failed items fs).
Proof.
  intros Hwf res items fs.
  pose proof (run_on_names (host_store h) on_good on_failed items fs Hwf) as Hnames.
  pose proof (selected_items_NoDup on_good on_failed items fs (proj1 Hwf)) as Hnd.
  assert (res = target_entry task (host_store h)
                  <$> session_run_on h s on_good on_failed) as Hres.
  { subst res. rewrite Nornir_run_result. by apply run_scheduled_result. }
  assert (dict_keys res = (selected_items on_good on_failed items fs).*1) as Hkeys.
  { rewrite Hres. unfold dict_keys. rewrite <- list_fmap_compose.
    rewrite <- Hnames. done. }
  split_and!; [done | by rewrite Hres, length_fmap | done | by rewrite Hkeys | |].
  - rewrite Hkeys. apply selected_items_Permutation.
  - intros Hone. rewrite Hkeys. by apply selected_items_one_flag.
Qed.

(** The amended C1 on the example: A failed, both flags. *)
Lemma run_result_order_witness :
  let h := example_heap {["A"]} (mkConfig 20 false) in
  inventory_wf (host_store h) (hosts (session_inventory h 1%positive))
  ∧ dict_keys (run_result (Nornir_run h 1%positive fails_on_B None None true true))
    = ["B"; "C"; "A"].
Proof.
  intros h.
  assert (inventory_wf (host_store h) (hosts (session_inventory h 1%positive)))
    as Hwf by (apply (bool_decide_unpack _); vm_compute; exact I).
  split; [exact Hwf|].
  destruct (run_result_order h 1%positive fails_on_B None None true true Hwf)
    as (_ & _ & Hkeys & _).
  rewrite Hkeys. vm_compute. reflexivity.
Defined.

(** C1 as stated fails: with A in the failed set and both flags set, the
    result of a run over A, B, C is keyed B, C, A, which is not the iteration
    order A, B, C of the inventory. *)
Lemma run_result_order_counterexample :
  dict_keys (run_result (Nornir_run (example_heap {["A"]} (mkConfig 20 false))
                           1%positive fails_on_B (Some 1) None true true))
  ≠ selected_in_inventory_order true true
      (hosts (session_inventory (example_heap {["A"]} (mkConfig 20 false)) 1%positive))
      (session_failed_hosts (example_heap {["A"]} (mkConfig 20 false)) 1%positive).
Proof. vm_compute. discriminate. Qed.

(** ** Worker count and dispatch *)

(** C7 as stated fails on an explicit worker count of zero: [0 or default]
    is the default, so the configured 20 is used and the pool is made for
    the three targets. *)
Lemma run_dispatch_counterexample :
  effective_num_workers (Some 0) (mkConfig 20 false) ≠ 0
  ∧ out_execution (Nornir_run (example_heap ∅ (mkConfig 20 false)) 1%positive
                              fails_on_B (Some 0) None true false)
    = Pooled 3.
Proof. split; [vm_compute; discriminate | vm_compute; reflexivity]. Qed.

(** C7, as amended.  The effective worker count is the explicit
    [num_workers] argument when one is given and is not zero, and the
    configured default when none is given or zero is given; [run] executes
    serially exactly when the effective count is 1, and otherwise on a pool
    of [min(count, number of targets)] workers, which is bounded by the
    count. *)
Theorem run_dispatch (h : Heap) (s : loc) (task : work_function)
    (num_workers_arg : option Z) (raise_on_error_arg : option bool)
    (on_good on_failed : bool) :
  let c := config (nornir_store h !!! s) in
  let w := effective_num_workers num_workers_arg c in
  let targets := session_run_on h s on_good on_failed in
  let o := Nornir_run h s task num_workers_arg raise_on_error_arg
                      on_good on_failed in
  (∀ n, num_workers_arg = Some n → n ≠ 0 → w = n)
  ∧ (num_workers_arg = None ∨ num_workers_arg = Some 0 → w = num_workers c)
  ∧ (out_execution o = Serial ↔ w = 1)
  ∧ (w ≠ 1 →
     out_execution o = Pooled (Z.min w (Z.of_nat (length targets)))
     ∧ Z.min w (Z.of_nat (length targets)) ≤ w).
Proof.
  intros c w targets o. split_and!.
  - intros n -> Hn. subst w. unfold effective_num_workers, py_or.
    destruct (Z.eqb_spec n 0); [done | done].
  - intros [->| ->]; done.
  - subst o. rewrite Nornir_run_execution. unfold run_scheduled. fold c w.
    destruct (Z.eqb_spec w 1) as [Hw|Hw].
    + unfold run_serial. by destruct (serial_loop _ _ _ _).
    + unfold run_parallel. destruct (collect _ _ _). cbn. split; [done | done].
  - intros Hw. subst o. rewrite Nornir_run_execution. unfold run_scheduled.
    fold c w targets. destruct (Z.eqb_spec w 1) as [|_]; [done|].
    unfold run_parallel. destruct (collect _ _ _). cbn. split; [done | lia].
Qed.

(** ** What a run leaves in the store *)

Lemma Nornir_run_nornir_store h s task nw roe on_good on_failed :
  nornir_store (out_heap (Nornir_run h s task nw roe on_good on_failed))
  = nornir_store h.
Proof.
  unfold Nornir_run, AggregatedResult_raise_on_error.
  destruct (effective_raise_on_error _ _); [|done].
  by destruct (AggregatedResult_failed _).
Qed.

Lemma Nornir_run_inventory_store h s task nw roe on_good on_failed :
  inventory_store (out_heap (Nornir_run h s task nw roe on_good on_failed))
  = inventory_store h.
Proof.
  unfold Nornir_run, AggregatedResult_raise_on_error.
  destruct (effective_raise_on_error _ _); [|done].
  by destruct (AggregatedResult_failed _).
Qed.

Lemma Nornir_run_host_store h s task nw roe on_good on_failed :
  host_store (out_heap (Nornir_run h s task nw roe on_good on_failed))
  = scheduled_hosts (run_scheduled h s task nw on_good on_failed).
Proof.
  unfold Nornir_run, run_scheduled, AggregatedResult_raise_on_error.
  destruct (effective_raise_on_error _ _); [|done].
  by destruct (AggregatedResult_failed _).
Qed.

Lemma Nornir_run_data_store h s task nw roe on_good on_failed :
  data_store (out_heap (Nornir_run h s task nw roe on_good on_failed))
  = if effective_raise_on_error roe (config (nornir_store h !!! s))
    then data_store h
    else alter (set_failed_hosts
                  (λ f, f ∪ newly_failed h s task nw on_good on_failed))
               (data (nornir_store h !!! s)) (data_store h).
Proof.
  unfold Nornir_run, newly_failed, run_scheduled, AggregatedResult_raise_on_error.
  destruct (effective_raise_on_error _ _); [|done].
  by destruct (AggregatedResult_failed _).
Qed.

(** C9.  A run whose effective raise-on-error policy is true leaves every
    [Data] object as it was, so the failed set of the session is the one from
    before the call, whether the run raises or returns. *)
Theorem run_raising_keeps_failed_hosts (h : Heap) (s : loc) (task : work_function)
    (num_workers_arg : option Z) (raise_on_error_arg : option bool)
    (on_good on_failed : bool) :
  effective_raise_on_error raise_on_error_arg (config (nornir_store h !!! s)) = true →
  let o := Nornir_run h s task num_workers_arg raise_on_error_arg
                      on_good on_failed in
  data_store (out_heap o) = data_store h
  ∧ session_failed_hosts (out_heap o) s = session_failed_hosts h s.
Proof.
  intros Hroe o. subst o.
  assert (data_store (out_heap (Nornir_run h s task num_workers_arg
            raise_on_error_arg on_good on_failed)) = data_store h) as Hd.
  { by rewrite Nornir_run_data_store, Hroe. }
  split; [done|]. unfold session_failed_hosts, session_data.
  by rewrite Hd, Nornir_run_nornir_store.
Qed.

(** C9 on the example: the run raises and the failed set is still A alone. *)
Lemma run_raising_keeps_failed_hosts_witness :
  let h := example_heap {["A"]} (mkConfig 20 false) in
  let o := Nornir_run h 1%positive fails_on_B None (Some true) true false in
  (∃ e, out_outcome o = Raise e)
  ∧ session_failed_hosts (out_heap o) 1%positive = {["A"]}.
Proof.
  intros h o. split.
  - eexists. vm_compute. reflexivity.
  - subst o.
    rewrite (proj2 (run_raising_keeps_failed_hosts h 1%positive fails_on_B
                      None (Some true) true false eq_refl)).
    vm_compute. reflexivity.
Defined.

(** ** Sessions of the store *)

Lemma lookup_total_alter_Some `{!Inhabited A} (f : A → A) (m : gmap loc A) i :
  is_Some (m !! i) → alter f i m !!! i = f (m !!! i).
Proof.
  intros [x Hx]. rewrite lookup_total_alter_eq, Hx. cbn.
  by rewrite (lookup_total_correct _ _ _ Hx).
Qed.

Lemma AggregatedResult_failed_true (r : AggregatedResult) :
  AggregatedResult_failed r = true ↔ ∃ kv, kv ∈ r ∧ failed kv.2 = true.
Proof.
  unfold AggregatedResult_failed. rewrite existsb_exists.
  split; intros (kv & Hin & Hf); exists kv; by rewrite list_elem_of_In in *.
Qed.

Lemma Nornir_run_failed_hosts_false h s task nw roe on_good on_failed :
  effective_raise_on_error roe (config (nornir_store h !!! s)) = false →
  is_Some (data_store h !! data (nornir_store h !!! s)) →
  session_failed_hosts (out_heap (Nornir_run h s task nw roe on_good on_failed)) s
  = session_failed_hosts h s ∪ newly_failed h s task nw on_good on_failed.
Proof.
  intros Hp Hd. unfold session_failed_hosts, session_data.
  rewrite Nornir_run_data_store, Nornir_run_nornir_store, Hp.
  by rewrite lookup_total_alter_Some.
Qed.

(** C3.  For a session of the store over a well-formed inventory, with [res]
    the result holding the entry of every target of the working list: when
    the effective raise-on-error policy is true and some target failed, [run]
    raises the execution error that carries [res]; when the policy is false,
    [run] returns [res] and the failed set of the session becomes the old one
    together with the names of the targets that failed in this run. *)
Theorem run_raise_or_record (h : Heap) (s : loc) (task : work_function)
    (num_workers_arg : option Z) (raise_on_error_arg : option bool)
    (on_good on_failed : bool) :
  session_valid h s →
  inventory_wf (host_store h) (hosts (session_inventory h s)) →
  let o := Nornir_run h s task num_workers_arg raise_on_error_arg
                      on_good on_failed in
  let targets := session_run_on h s on_good on_failed in
  let res := target_entry task (host_store h) <$> targets in
  let policy :=
    effective_raise_on_error raise_on_error_arg (config (nornir_store h !!! s)) in
  (policy = true →
   (∃ t, t ∈ targets ∧ failed (target_entry task (host_store h) t).2 = true) →
   out_outcome o = Raise (ExecutionError res))
  ∧ (policy = false →
     out_outcome o = Return res
     ∧ session_failed_hosts (out_heap o) s
       = session_failed_hosts h s
         ∪ list_to_set (dict_keys (AggregatedResult_failed_hosts res))).
Proof.
  intros (Hs & Hd & Hi & _) Hwf o targets res policy.
  pose proof (run_scheduled_result h s task num_workers_arg on_good on_failed Hwf)
    as Hres. fold targets res in Hres.
  split.
  - intros Hp (t & Ht & Hf). subst o. unfold Nornir_run.
    fold (run_scheduled h s task num_workers_arg on_good on_failed).
    fold policy. rewrite Hp, Hres. unfold AggregatedResult_raise_on_error.
    assert (AggregatedResult_failed res = true) as ->; [|done].
    apply AggregatedResult_failed_true. exists (target_entry task (host_store h) t).
    split; [|done]. subst res. by apply list_elem_of_fmap_2.
  - intros Hp. split.
    + subst o. unfold Nornir_run.
      fold (run_scheduled h s task num_workers_arg on_good on_failed).
      fold policy. by rewrite Hp, Hres.
    + subst o. rewrite Nornir_run_failed_hosts_false by done.
      unfold newly_failed. by rewrite Hres.
Qed.

(** C3 on the example: no raising, B fails and joins A in the failed set. *)
Lemma run_raise_or_record_witness :
  let h := example_heap {["A"]} (mkConfig 20 false) in
  let o := Nornir_run h 1%positive fails_on_B None None true true in
  (∃ r, out_outcome o = Return r)
  ∧ session_failed_hosts (out_heap o) 1%positive = {["A"; "B"]}.
Proof.
  intros h o.
  assert (session_valid h 1%positive) as Hv
    by (apply (bool_decide_unpack _); vm_compute; exact I).
  assert (inventory_wf (host_store h) (hosts (session_inventory h 1%positive)))
    as Hwf by (apply (bool_decide_unpack _); vm_compute; exact I).
  destruct (run_raise_or_record h 1%positive fails_on_B None None true true Hv Hwf)
    as [_ Hfalse].
  destruct (Hfalse eq_refl) as [Hret Hset]. split.
  - eexists. exact Hret.
  - subst o. rewrite Hset. vm_compute. reflexivity.
Defined.

(** ** What filter leaves in the store *)

Section FilterStores.

Variable plugins_available_connections : list string.
Variable default_config : Config.
Variable inventory_assign_nornir : option loc → loc → option loc.

Abbreviation filter_ :=
  (Nornir_filter plugins_available_connections default_config
     inventory_assign_nornir).
Abbreviation apply_op_ :=
  (apply_op plugins_available_connections default_config
     inventory_assign_nornir).
Abbreviation apply_ops_ :=
  (apply_ops plugins_available_connections default_config
     inventory_assign_nornir).

(** The four tables after a successful [filter], spelled out. *)
Lemma Nornir_filter_stores h s criteria h' b :
  filter_ h s criteria = Some (h', b) →
  let self := nornir_store h !!! s in
  let invs := alter (set_nornir inventory_assign_nornir b) (inventory self)
                    (inventory_store h) in
  let i' := fresh (dom invs) in
  b = fresh (dom (nornir_store h))
  ∧ host_store h' = host_store h
  ∧ (∃ dr, dry_run (session_data h s) = Some dr
           ∧ data_store h' = alter (set_dry_run dr) (data self) (data_store h))
  ∧ inventory_store h'
    = <[i' := mkInventory
                (filter (λ item, host_matches criteria (host_store h !!! item.2) = true)
                        (hosts (invs !!! inventory self)))
                (nornir (invs !!! inventory self))]> invs
  ∧ nornir_store h'
    = <[b := mkNornir (data self) i' (config self)]> (nornir_store h).
Proof.
  unfold Nornir_filter, Nornir_dry_run. intros Hf.
  destruct (dry_run (session_data h s)) as [dr|] eqn:Hdr; [|done].
  cbn in Hf. injection Hf as <- <-. cbn.
  set (b := fresh (dom (nornir_store h))).
  set (self := nornir_store h !!! s).
  assert (inventory (<[b:=mkNornir (data self) (inventory self) (config self)]>
                       (nornir_store h) !!! s) = inventory self) as ->.
  { destruct (decide (b = s)) as [->|Hne].
    - by rewrite lookup_total_insert_eq.
    - by rewrite lookup_total_insert_ne. }
  split_and!; [done | done | by exists dr | done |].
  by rewrite alter_insert_eq.
Qed.


(** ** What the calls keep of the store *)

Lemma heap_extends_refl h : heap_extends h h.
Proof. split; naive_solver. Qed.

Lemma heap_extends_trans h1 h2 h3 :
  heap_extends h1 h2 → heap_extends h2 h3 → heap_extends h1 h3.
Proof.
  intros [N1 I1 D1] [N2 I2 D2]. split.
  - naive_solver.
  - intros i x Hx. destruct (I1 _ _ Hx) as (x' & Hx' & Heq).
    destruct (I2 _ _ Hx') as (x'' & Hx'' & Heq'). exists x''. split; [done|congruence].
  - intros d x Hx. destruct (D1 _ _ Hx) as (x' & Hx' & Hsub & Hdr).
    destruct (D2 _ _ Hx') as (x'' & Hx'' & Hsub' & Hdr'). exists x''.
    split_and!; [done | set_solver | tauto].
Qed.

Lemma alter_data_extends (g : Data → Data) (d : loc) (m : gmap loc Data) :
  (∀ x, failed_hosts x ⊆ failed_hosts (g x)
        ∧ (is_Some (dry_run x) → is_Some (dry_run (g x)))) →
  ∀ d' x, m !! d' = Some x →
    ∃ x', alter g d m !! d' = Some x'
          ∧ failed_hosts x ⊆ failed_hosts x'
          ∧ (is_Some (dry_run x) → is_Some (dry_run x')).
Proof.
  intros Hg d' x Hx. rewrite lookup_alter. case_decide as Hd.
  - subst d'. rewrite Hx. cbn. exists (g x). split; [done | apply Hg].
  - exists x. by rewrite Hx.
Qed.

Lemma Nornir_run_extends h s task nw roe on_good on_failed :
  heap_extends h (out_heap (Nornir_run h s task nw roe on_good on_failed)).
Proof.
  split.
  - by rewrite Nornir_run_nornir_store.
  - rewrite Nornir_run_inventory_store. naive_solver.
  - rewrite Nornir_run_data_store. destruct (effective_raise_on_error _ _).
    + naive_solver.
    + apply alter_data_extends. intros x. cbn. split; [set_solver | done].
Qed.

Lemma Nornir_filter_extends h s criteria h' b :
  filter_ h s criteria = Some (h', b) → heap_extends h h'.
Proof.
  intros Hf.
  destruct (Nornir_filter_stores _ _ _ _ _ Hf)
    as (Hb & _ & (dr & _ & Hdata) & Hinv & Hnor).
  cbn zeta in Hinv, Hnor. split.
  - intros s' x Hx. rewrite Hnor, lookup_insert_ne; [done|].
    intros <-. assert (b ∈ dom (nornir_store h)) as Hin by (by apply elem_of_dom).
    revert Hin. rewrite Hb. apply is_fresh.
  - intros i x Hx. rewrite Hinv.
    set (invs := alter (set_nornir inventory_assign_nornir b)
                     (inventory (nornir_store h !!! s))
                       (inventory_store h)) in *.
    assert (∃ x', invs !! i = Some x' ∧ hosts x' = hosts x) as (x' & Hx' & Heq).
    { subst invs. rewrite lookup_alter. case_decide.
      - subst i. rewrite Hx. by eexists.
      - by exists x. }
    exists x'. split; [|done]. rewrite lookup_insert_ne; [done|].
    intros <-. assert (fresh (dom invs) ∈ dom invs) as Hin by (by apply elem_of_dom).
    revert Hin. apply is_fresh.
  - rewrite Hdata. apply alter_data_extends. intros x. cbn. split; [done | eauto].
Qed.

Lemma apply_op_extends h op : heap_extends h (apply_op_ h op).
Proof.
  destruct op as [s task nw roe g f|s criteria]; cbn.
  - apply Nornir_run_extends.
  - destruct (filter_ h s criteria) as [[h' b]|] eqn:Hf.
    + by eapply Nornir_filter_extends.
    + apply heap_extends_refl.
Qed.

Lemma apply_ops_extends h ops : heap_extends h (apply_ops_ h ops).
Proof.
  revert h. induction ops as [|op ops IH]; intros h; cbn.
  - apply heap_extends_refl.
  - eapply heap_extends_trans; [apply apply_op_extends | apply IH].
Qed.

(** A session of the store is still one in any later store, with the same
    [Data] object and the same targets, and a failed set that has lost
    nothing. *)
Lemma heap_extends_session h h' s :
  heap_extends h h' → session_valid h s →
  session_valid h' s
  ∧ nornir_store h' !!! s = nornir_store h !!! s
  ∧ hosts (session_inventory h' s) = hosts (session_inventory h s)
  ∧ session_failed_hosts h s ⊆ session_failed_hosts h' s.
Proof.
  intros [N I D] ([x Hx] & [d Hd] & [i Hi] & Hdr).
  assert (nornir_store h' !!! s = nornir_store h !!! s) as Hself.
  { rewrite (lookup_total_correct _ _ _ Hx).
    by rewrite (lookup_total_correct _ _ _ (N _ _ Hx)). }
  destruct (I _ _ Hi) as (i' & Hi' & Hhosts).
  destruct (D _ _ Hd) as (d' & Hd' & Hsub & Hdr').
  unfold session_valid, session_inventory, session_failed_hosts, session_data in *.
  rewrite Hself.
  rewrite (lookup_total_correct _ _ _ Hd) in *.
  rewrite (lookup_total_correct _ _ _ Hi).
  rewrite (lookup_total_correct _ _ _ Hd').
  rewrite (lookup_total_correct _ _ _ Hi').
  split_and!; eauto.
Qed.

(** C6.  Whatever calls are made on the store, [filter] calls with any
    criteria on any session (and runs between them), a session of the store
    keeps its inventory object and the targets in it: the same names and
    hosts in the same order, hence the same count. *)
Theorem filter_keeps_parent_targets (h : Heap) (s : loc) (ops : list Op) :
  session_valid h s →
  let h' := apply_ops_ h ops in
  inventory (nornir_store h' !!! s) = inventory (nornir_store h !!! s)
  ∧ hosts (session_inventory h' s) = hosts (session_inventory h s)
  ∧ length (hosts (session_inventory h' s)) = length (hosts (session_inventory h s)).
Proof.
  intros Hv h'.
  destruct (heap_extends_session h h' s (apply_ops_extends h ops) Hv)
    as (_ & Hself & Hhosts & _).
  by rewrite Hself, Hhosts.
Qed.

(** C2.  When a run with raise-on-error false on a session of the store
    fails on the target named [n], then [n] is in the failed set after that
    run and after any later sequence of runs (with any arguments and any
    outcome) and filter calls; [recover_host] then takes it out and
    [reset_failed_hosts] empties the set. *)
Theorem failed_hosts_persist (h : Heap) (s : loc) (task : work_function)
    (num_workers_arg : option Z) (raise_on_error_arg : option bool)
    (on_good on_failed : bool) (n : string) (ops : list Op) :
  session_valid h s →
  effective_raise_on_error raise_on_error_arg (config (nornir_store h !!! s)) = false →
  n ∈ dict_keys (AggregatedResult_failed_hosts
                   (run_result (Nornir_run h s task num_workers_arg
                                           raise_on_error_arg on_good on_failed))) →
  let h1 := out_heap (Nornir_run h s task num_workers_arg raise_on_error_arg
                                 on_good on_failed) in
  let h2 := apply_ops_ h1 ops in
  let d := data (nornir_store h2 !!! s) in
  n ∈ session_failed_hosts h1 s
  ∧ n ∈ session_failed_hosts h2 s
  ∧ (n ∉ session_failed_hosts (recover_host h2 d n) s)
  ∧ session_failed_hosts (reset_failed_hosts h2 d) s = ∅.
Proof.
  intros Hv Hp Hn h1 h2 d.
  assert (n ∈ session_failed_hosts h1 s) as H1.
  { subst h1. rewrite Nornir_run_failed_hosts_false by (done || apply Hv).
    apply elem_of_union_r. unfold newly_failed.
    rewrite <- (Nornir_run_result h s task num_workers_arg raise_on_error_arg).
    by apply elem_of_list_to_set. }
  destruct (heap_extends_session h h1 s (Nornir_run_extends _ _ _ _ _ _ _) Hv)
    as (Hv1 & _).
  destruct (heap_extends_session h1 h2 s (apply_ops_extends h1 ops) Hv1)
    as (Hv2 & _ & _ & Hsub).
  split_and!; [done | by apply Hsub | |].
  - unfold session_failed_hosts, session_data, recover_host. cbn. fold d.
    rewrite lookup_total_alter_Some by apply Hv2. cbn. set_solver.
  - unfold session_failed_hosts, session_data, reset_failed_hosts. cbn. fold d.
    by rewrite lookup_total_alter_Some by apply Hv2.
Qed.

(** C4.  On a session of the store [filter] succeeds, and the clone it
    returns is a new session holding the very [Data] object of the parent
    (hence the same failed set and the same dry-run flag).  So when a run
    with raise-on-error false on the clone fails on the target named [n],
    every session sharing that object, the parent and any other filtered
    copy, has [n] in its failed set afterwards, and no target named [n] is
    among its good targets. *)
Theorem filter_shares_data (h : Heap) (s : loc) (criteria : list Criterion) :
  session_valid h s →
  ∃ h' b, filter_ h s criteria = Some (h', b)
    ∧ b ≠ s
    ∧ data (nornir_store h' !!! b) = data (nornir_store h !!! s)
    ∧ data (nornir_store h' !!! s) = data (nornir_store h !!! s)
    ∧ session_failed_hosts h' b = session_failed_hosts h s
    ∧ Nornir_dry_run h' b = Nornir_dry_run h s
    ∧ ∀ s' task num_workers_arg raise_on_error_arg on_good on_failed n,
        data (nornir_store h' !!! s') = data (nornir_store h' !!! b) →
        effective_raise_on_error raise_on_error_arg
                                 (config (nornir_store h' !!! b)) = false →
        n ∈ dict_keys (AggregatedResult_failed_hosts
                         (run_result (Nornir_run h' b task num_workers_arg
                                        raise_on_error_arg on_good on_failed))) →
        let h2 := out_heap (Nornir_run h' b task num_workers_arg
                                       raise_on_error_arg on_good on_failed) in
        n ∈ session_failed_hosts h2 s'
        ∧ ∀ l, (n, l) ∉ good_items (hosts (session_inventory h2 s'))
                                  (session_failed_hosts h2 s').
Proof.
  intros Hv. pose proof Hv as (Hs & Hd & Hi & [dr Hdr]).
  destruct (filter_ h s criteria) as [[h' b]|] eqn:Hf.
  2: { unfold Nornir_filter, Nornir_dry_run in Hf. by rewrite Hdr in Hf. }
  exists h', b. split; [done|].
  destruct (Nornir_filter_stores _ _ _ _ _ Hf)
    as (Hb & _ & (dr' & Hdr' & Hdata) & _ & Hnor).
  cbn zeta in Hnor.
  assert (b ≠ s) as Hne.
  { intros ->. apply elem_of_dom in Hs. revert Hs. rewrite Hb. apply is_fresh. }
  assert (data (nornir_store h' !!! b) = data (nornir_store h !!! s)) as Hdb.
  { by rewrite Hnor, lookup_total_insert_eq. }
  assert (nornir_store h' !!! s = nornir_store h !!! s) as Hself.
  { by rewrite Hnor, lookup_total_insert_ne. }
  assert (data_store h' !!! data (nornir_store h !!! s)
          = set_dry_run dr' (session_data h s)) as Hdobj.
  { by rewrite Hdata, lookup_total_alter_Some. }
  split_and!; [done | done | by rewrite Hself | | |].
  - unfold session_failed_hosts, session_data at 1. by rewrite Hdb, Hdobj.
  - unfold Nornir_dry_run, session_data at 1. rewrite Hdb, Hdobj. cbn. congruence.
  - intros s' task nw roe g f n Hshare Hp Hn h2.
    assert (n ∈ session_failed_hosts h2 b) as Hnb.
    { subst h2. rewrite Nornir_run_failed_hosts_false.
      - apply elem_of_union_r. unfold newly_failed.
        rewrite <- (Nornir_run_result h' b task nw roe).
        by apply elem_of_list_to_set.
      - done.
      - rewrite Hdb, Hdata. apply elem_of_dom. rewrite dom_alter_L.
        by apply elem_of_dom. }
    assert (session_failed_hosts h2 s' = session_failed_hosts h2 b) as Hsame.
    { unfold session_failed_hosts, session_data. subst h2.
      by rewrite Nornir_run_nornir_store, Hshare. }
    rewrite Hsame. split; [done|].
    intros l [Hgood _]%list_elem_of_filter. by apply Hgood.
Qed.

End FilterStores.

(** ** Leaving a scope *)

Lemma Task_start_close x :
  Task_start close_connections_task x
  = (set_connections ∅ x, mkResult (name x) None None false).
Proof. done. Qed.

Lemma dict_setitem_Forall {V : Type} (P : string * V → Prop) k v d :
  P (k, v) → Forall P d → Forall P (dict_setitem k v d).
Proof.
  intros Hkv. induction 1 as [|[k' v'] d Hx Hd IH]; cbn.
  - by constructor.
  - case_decide; constructor; done.
Qed.

Lemma serial_loop_closes targets (hs : gmap loc Host) acc l :
  l ∈ targets ∨ connections (hs !!! l) = ∅ →
  connections ((serial_loop close_connections_task targets hs acc).1 !!! l) = ∅.
Proof.
  revert hs acc. induction targets as [|t targets IH]; intros hs acc Hl.
  - cbn. destruct Hl as [Hl|Hl]; [by apply elem_of_nil in Hl | done].
  - cbn [serial_loop]. rewrite Task_start_close. apply IH.
    destruct (decide (l = t)) as [->|Hne].
    + right. by rewrite lookup_total_insert_eq.
    + rewrite lookup_total_insert_ne by done.
      destruct Hl as [Hl|Hl]; [left; set_solver | by right].
Qed.

Lemma collect_closes targets (hs0 hs : gmap loc Host) acc l :
  l ∈ targets ∨ connections (hs !!! l) = ∅ →
  connections
    ((collect (submit close_connections_task targets hs0) hs acc).1 !!! l) = ∅.
Proof.
  revert hs acc. induction targets as [|t targets IH]; intros hs acc Hl.
  - cbn. destruct Hl as [Hl|Hl]; [by apply elem_of_nil in Hl | done].
  - cbn [submit map collect]. rewrite Task_start_close.
    apply IH.
    destruct (decide (l = t)) as [->|Hne].
    + right. by rewrite lookup_total_insert_eq.
    + rewrite lookup_total_insert_ne by done.
      destruct Hl as [Hl|Hl]; [left; set_solver | by right].
Qed.

Lemma serial_loop_close_ok targets (hs : gmap loc Host) acc :
  Forall (λ kv, failed kv.2 = false) acc →
  Forall (λ kv, failed kv.2 = false)
         (serial_loop close_connections_task targets hs acc).2.
Proof.
  revert hs acc. induction targets as [|t targets IH]; intros hs acc Hacc; [done|].
  cbn [serial_loop]. rewrite Task_start_close. apply IH.
  by apply dict_setitem_Forall.
Qed.

Lemma collect_close_ok targets (hs0 hs : gmap loc Host) acc :
  Forall (λ kv, failed kv.2 = false) acc →
  Forall (λ kv, failed kv.2 = false)
         (collect (submit close_connections_task targets hs0) hs acc).2.
Proof.
  revert hs acc. induction targets as [|t targets IH]; intros hs acc Hacc; [done|].
  cbn [submit map collect]. rewrite Task_start_close. apply IH.
  by apply dict_setitem_Forall.
Qed.

Lemma run_on_both_flags (items : list (string * loc)) (fs : gset string) n l :
  (n, l) ∈ items → l ∈ select_run_on true true items fs.
Proof.
  intros Hin. rewrite select_run_on_items. apply list_elem_of_fmap.
  exists (n, l). split; [done|]. unfold selected_items. apply elem_of_app.
  destruct (decide (n ∈ fs)); [right | left]; by apply list_elem_of_filter.
Qed.

(** C8.  Leaving the scope of a session, with or without an exception in
    flight, is [close_connections] with both flags set: every target of the
    inventory, good or failed, is in the working list of that run, and after
    it the connections table of every target of the inventory is empty.  The
    closing run itself raises nothing, so the exception in flight, if any,
    is the one that goes on. *)
Theorem exit_closes_connections (h : Heap) (s : loc) (exc : option string) :
  let r := Nornir_exit h s exc in
  r = Nornir_close_connections h s true true
  ∧ r.2 = None
  ∧ ∀ n l, (n, l) ∈ hosts (session_inventory h s) →
      l ∈ session_run_on h s true true
      ∧ connections (host_store r.1 !!! l) = ∅.
Proof.
  intros r. subst r. unfold Nornir_exit, Nornir_close_connections. cbn [fst snd].
  split_and!; [done | |].
  - assert (AggregatedResult_failed
              (aggregated (run_scheduled h s close_connections_task None true true))
            = false) as Hok.
    { apply not_true_is_false. intros (kv & Hin & Hf)%AggregatedResult_failed_true.
      assert (Forall (λ kv, failed kv.2 = false)
                (aggregated (run_scheduled h s close_connections_task None true true)))
        as Hall.
      { unfold run_scheduled. destruct (_ =? 1).
        - unfold run_serial.
          pose proof (serial_loop_close_ok (session_run_on h s true true)
                        (host_store h) [] (Forall_nil_2 _)) as H.
          by destruct (serial_loop _ _ _ _).
        - unfold run_parallel.
          pose proof (collect_close_ok (session_run_on h s true true)
                        (host_store h) (host_store h) [] (Forall_nil_2 _)) as H.
          by destruct (collect _ _ _). }
      rewrite Forall_forall in Hall. specialize (Hall _ Hin). congruence. }
    unfold Nornir_run. fold (run_scheduled h s close_connections_task None true true).
    unfold AggregatedResult_raise_on_error. rewrite Hok.
    by destruct (effective_raise_on_error _ _).
  - intros n l Hin.
    pose proof (run_on_both_flags _ (session_failed_hosts h s) _ _ Hin) as Hl.
    split; [done|]. rewrite Nornir_run_host_store. unfold run_scheduled.
    fold (session_run_on h s true true) in Hl.
    destruct (_ =? 1).
    + unfold run_serial.
      pose proof (serial_loop_closes (session_run_on h s true true)
                    (host_store h) [] l (or_introl Hl)) as H.
      by destruct (serial_loop _ _ _ _).
    + unfold run_parallel.
      pose proof (collect_closes (session_run_on h s true true)
                    (host_store h) (host_store h) [] l (or_introl Hl)) as H.
      by destruct (collect _ _ _).
Qed.

(** ** The constructor and the examples *)

(** Every session the constructor makes over an inventory of the store is a
    session of the store. *)
Lemma Nornir_init_valid plugins default_config assign h i dr c a d :
  is_Some (inventory_store h !! i) →
  (∀ d0, d = Some d0 → is_Some (data_store h !! d0)) →
  session_valid (Nornir_init plugins default_config assign h i dr c a d).1
                (Nornir_init plugins default_config assign h i dr c a d).2.
Proof.
  intros Hi Hd. unfold Nornir_init.
  set (self := fresh (dom (nornir_store h))).
  destruct d as [d0|]; [specialize (Hd d0 eq_refl) as [x Hx]|clear Hd].
  - unfold session_valid, session_data.
    destruct a as [a|]; cbn; rewrite !lookup_total_insert_eq; cbn.
    + rewrite !lookup_insert_eq, !lookup_alter_eq, Hx.
      rewrite !lookup_total_alter_eq, !lookup_alter_eq, Hx. cbn.
      destruct Hi as [y ->]. cbn. split_and!; by eexists.
    + rewrite !lookup_insert_eq, !lookup_alter_eq, Hx.
      rewrite !lookup_total_alter_eq, Hx. cbn.
      destruct Hi as [y ->]. cbn. split_and!; by eexists.
  - unfold session_valid, session_data.
    destruct a as [a|]; cbn; rewrite !lookup_total_insert_eq; cbn.
    + rewrite !lookup_insert_eq, !lookup_alter_eq, !lookup_insert_eq.
      rewrite !lookup_total_alter_eq, !lookup_alter_eq, !lookup_insert_eq. cbn.
      destruct Hi as [y ->]. cbn. split_and!; by eexists.
    + rewrite !lookup_insert_eq, !lookup_alter_eq, !lookup_insert_eq.
      rewrite !lookup_total_alter_eq, !lookup_insert_eq. cbn.
      destruct Hi as [y ->]. cbn. split_and!; by eexists.
Qed.

(** The example session is a session of its store, over a well-formed
    inventory. *)
Lemma example_heap_valid fs c : session_valid (example_heap fs c) 1%positive.
Proof. unfold session_valid, session_data. cbn. split_and!; by eexists. Qed.

Lemma example_heap_wf fs c :
  inventory_wf (host_store (example_heap fs c))
               (hosts (session_inventory (example_heap fs c) 1%positive)).
Proof. apply (bool_decide_unpack _). vm_compute. exact I. Defined.

(** C5 on the example: A failed, both flags, no target twice. *)
Lemma run_on_set_semantics_witness :
  NoDup (session_run_on (example_heap {["A"]} example_config) 1%positive true true).
Proof.
  apply (run_on_set_semantics (example_heap {["A"]} example_config) 1%positive
                              true true).
  apply (bool_decide_unpack _). vm_compute. exact I.
Defined.



(** C6 on the example: the session still has its three targets. *)
Lemma filter_keeps_parent_targets_witness :
  hosts (session_inventory
           (apply_ops [] example_config assign_kept (example_heap ∅ example_config) example_ops)
           1%positive)
  = example_items.
Proof.
  apply (filter_keeps_parent_targets [] example_config assign_kept
           (example_heap ∅ example_config) 1%positive example_ops).
  apply (bool_decide_unpack _). vm_compute. exact I.
Defined.

(** C2 on the example: B fails once and is still recorded after the later
    successful calls. *)
Lemma failed_hosts_persist_witness :
  "B" ∈ session_failed_hosts
          (apply_ops [] example_config assign_kept
             (out_heap (Nornir_run (example_heap ∅ example_config) 1%positive
                                   fails_on_B None None true false))
             example_ops)
          1%positive.
Proof.
  apply (failed_hosts_persist [] example_config assign_kept (example_heap ∅ example_config)
           1%positive fails_on_B None None true false "B" example_ops).
  - apply (bool_decide_unpack _). vm_compute. exact I.
  - reflexivity.
  - apply (bool_decide_unpack _). vm_compute. exact I.
Defined.

(** C4 on the example: the clone and the session both hold [Data] object 1. *)
Lemma filter_shares_data_witness :
  ∃ h' b,
    Nornir_filter [] example_config assign_kept (example_heap ∅ example_config) 1%positive
                  [AttrEq "name" "B"] = Some (h', b)
    ∧ data (nornir_store h' !!! b) = 1%positive
    ∧ data (nornir_store h' !!! 1%positive) = 1%positive.
Proof.
  destruct (filter_shares_data [] example_config assign_kept (example_heap ∅ example_config)
              1%positive [AttrEq "name" "B"])
    as (h' & b & Hf & _ & Hb & Hs & _).
  - apply (bool_decide_unpack _). vm_compute. exact I.
  - exists h', b. split_and!; [exact Hf | exact Hb | exact Hs].
Defined.

(** ** The scenarios of the specification, evaluated *)

(** Targets A, B, C with a work function failing on B only and no raising:
    three entries, B failed, and the failed set is B alone. *)
Example scenario_B_fails :
  let o := Nornir_run (example_heap ∅ example_config) 1%positive fails_on_B
                      None (Some false) true false in
  (λ kv : string * Result, (kv.1, failed kv.2)) <$> run_result o
    = [("A", false); ("B", true); ("C", false)]
  ∧ session_failed_hosts (out_heap o) 1%positive = {["B"]}
  ∧ session_run_on (out_heap o) 1%positive true false = [1%positive; 3%positive]
  ∧ session_run_on (out_heap o) 1%positive false true = [2%positive].
Proof. vm_compute. done. Qed.

(** An explicit worker count of 1 runs serially whatever the default. *)
Example scenario_one_worker :
  out_execution (Nornir_run (example_heap ∅ example_config) 1%positive always_ok
                            (Some 1) None true false) = Serial.
Proof. vm_compute. reflexivity. Qed.

(** A later successful run over all the targets leaves B in the failed
    set. *)
Example scenario_no_self_healing :
  let h1 := out_heap (Nornir_run (example_heap ∅ example_config) 1%positive
                                 fails_on_B None None true false) in
  let h2 := out_heap (Nornir_run h1 1%positive always_ok None None true true) in
  session_failed_hosts h2 1%positive = {["B"]}
  ∧ session_failed_hosts (recover_host h2 1%positive "B") 1%positive = ∅.
Proof. vm_compute. done. Qed.

(** Leaving the scope closes the connection that B had open. *)
Example scenario_exit :
  connections (example_hosts !!! 2%positive) = {["ssh" := 7%nat]}
  ∧ connections
      (host_store (Nornir_exit (example_heap {["B"]} example_config) 1%positive
                               (Some "KeyboardInterrupt")).1 !!! 2%positive) = ∅.
Proof. vm_compute. done. Qed.

(** Filtering on the name B: the clone is object 2 over the new inventory 2
    holding B alone, and inventory 1 still holds the three targets. *)
Example scenario_filter :
  (λ r : Heap * loc,
     (r.2, nornir_store r.1 !!! r.2, hosts (session_inventory r.1 r.2),
      hosts (session_inventory r.1 1%positive)))
    <$> Nornir_filter [] example_config assign_kept (example_heap ∅ example_config) 1%positive
                      [AttrEq "name" "B"]
  = Some (2%positive, mkNornir 1%positive 2%positive example_config,
          [("B", 2%positive)], example_items).
Proof. vm_compute. reflexivity. Qed.

(** * Further properties of the module *)

(** ** configure_logging *)

Section LoggingFacts.

Variable upper : string → string.

Lemma run_steps_app steps1 steps2 d :
  run_steps (steps1 ++ steps2) d =
  match run_steps steps1 d with
  | (d', None) => run_steps steps2 d'
  | (d', Some e) => (d', Some e)
  end.
Proof.
  revert d. induction steps1 as [|st steps1 IH]; intros d; [done|].
  cbn. destruct (st d); [done | apply IH].
Qed.

Lemma run_steps_loggers entry loggers v del f hm lm r :
  run_steps (map (λ logger, loggers_setitem logger entry) loggers)
            (mkDictConfig v del f hm (Some lm) r)
  = (mkDictConfig v del f hm
       (Some (fold_left (λ m logger, <[logger := entry]> m) loggers lm)) r,
     None).
Proof.
  revert lm. induction loggers as [|lg loggers IH]; intros lm; [done|].
  cbn. apply IH.
Qed.

(** On a dict that has the keys the method goes through, no statement
    raises, and the dict ends with the handler names appended under the
    root, the handler entries and the logger entries written. *)
Lemma run_steps_complete c v del f hm lm lvl hs fmt :
  run_steps (logging_steps upper c)
    (mkDictConfig v del f (Some hm) (Some lm)
                  (Some (mkRootConfig lvl (Some hs) fmt)))
  = (mkDictConfig v del f (Some (add_handlers c hm)) (Some (add_loggers upper c lm))
       (Some (mkRootConfig lvl (Some (hs ++ handlers_list c)%list) fmt)),
     None).
Proof.
  unfold logging_steps, add_handlers, add_loggers, handlers_list.
  destruct (str_truthy (logging_file c)), (logging_to_console c); cbn;
    rewrite ?run_steps_loggers, <- ?app_assoc, ?app_nil_r; done.
Qed.

Lemma handlers_list_nil c :
  handlers_list c = [] ↔ logging_file c = "" ∧ logging_to_console c = false.
Proof.
  unfold handlers_list.
  destruct (logging_file c), (logging_to_console c); cbn; naive_solver.
Qed.

Lemma apply_dictConfig_complete v del f hm lm lvl hs fmt :
  apply_dictConfig (mkDictConfig v del f hm lm (Some (mkRootConfig lvl (Some hs) fmt)))
  = inr (match hs with
         | [] => None
         | _ => Some (mkDictConfig v del f hm lm
                        (Some (mkRootConfig lvl (Some hs) fmt)))
         end).
Proof. by destruct hs. Qed.

(** X1.  When the configuration supplies no dict of its own (none, or the
    empty one), [configure_logging] raises no [KeyError] and leaves the
    configuration as it is, and it applies a dict to the logging system
    exactly when a log file is named or logging to the console is asked
    for. *)
Theorem configure_logging_default (c : LoggingConfig) :
  uses_own_dict c = false →
  (configure_logging upper c).1 = c
  ∧ ∃ applied, (configure_logging upper c).2 = inr applied
      ∧ (is_Some applied ↔ logging_file c ≠ "" ∨ logging_to_console c = true).
Proof.
  intros Hown. unfold configure_logging. rewrite Hown.
  assert (match logging_dictConfig c with
          | Some d => if dict_is_empty d then default_dictConfig upper c else d
          | None => default_dictConfig upper c
          end = default_dictConfig upper c) as ->.
  { unfold uses_own_dict in Hown. destruct (logging_dictConfig c) as [d|]; [|done].
    by destruct (dict_is_empty d). }
  unfold default_dictConfig. rewrite run_steps_complete. cbn [fst snd].
  split; [done|]. rewrite apply_dictConfig_complete. cbn [app].
  eexists. split; [done|].
  pose proof (handlers_list_nil c) as Hnil.
  destruct (handlers_list c) as [|x l].
  - split; [by intros [? ?] |]. intros [Hf|Hcon].
    + by destruct Hnil as [[? ?] _].
    + destruct Hnil as [[_ ?] _]; [done | congruence].
  - split; [|by eexists]. intros _.
    destruct (decide (logging_file c = "")) as [Hf|Hf]; [|by left].
    right. destruct (logging_to_console c); [done|].
    by destruct Hnil as [_ Hn]; specialize (Hn (conj Hf eq_refl)).
Qed.

Lemma add_handlers_lookup c (m : gmap string (gmap string PyVal)) n :
  is_Some (add_handlers c m !! n) ↔ n ∈ handlers_list c ∨ is_Some (m !! n).
Proof.
  unfold add_handlers, handlers_list.
  destruct (str_truthy (logging_file c)), (logging_to_console c); cbn;
    rewrite ?lookup_insert_is_Some', ?elem_of_cons, ?elem_of_nil; naive_solver.
Qed.

Lemma fold_insert_lookup {V : Type} (entry : V) loggers (m : gmap string V) lg :
  fold_left (λ m logger, <[logger := entry]> m) loggers m !! lg
  = if decide (lg ∈ loggers) then Some entry else m !! lg.
Proof.
  revert m. induction loggers as [|x loggers IH]; intros m; cbn.
  - by rewrite decide_False by set_solver.
  - rewrite IH. destruct (decide (lg ∈ loggers)).
    + by rewrite decide_True by set_solver.
    + destruct (decide (lg = x)) as [->|Hne].
      * rewrite lookup_insert_eq. by rewrite decide_True by set_solver.
      * rewrite lookup_insert_ne by done. by rewrite decide_False by set_solver.
Qed.

(** X2.  The dict applied when the configuration supplies none is closed:
    the names under the root are the handlers the method defines, every one
    of them has its entry, the loggers with an entry are the configured
    ones, each at the upper-cased level and with those same handlers, and
    the root is at CRITICAL as soon as a logger is configured. *)
Theorem configure_logging_closed (c : LoggingConfig) (d : DictConfig) :
  uses_own_dict c = false →
  (configure_logging upper c).2 = inr (Some d) →
  ∃ hm lm r,
    dc_handlers d = Some hm ∧ dc_loggers d = Some lm ∧ dc_root d = Some r
    ∧ root_handlers r = Some (handlers_list c)
    ∧ (∀ n, is_Some (hm !! n) ↔ n ∈ handlers_list c)
    ∧ (∀ lg, is_Some (lm !! lg) ↔ lg ∈ logging_loggers c)
    ∧ (∀ lg e, lm !! lg = Some e →
         e = mkLoggerConfig (upper (logging_level c)) (handlers_list c))
    ∧ root_level r = Some (if decide (logging_loggers c = [])
                           then upper (logging_level c) else "CRITICAL").
Proof.
  intros Hown. unfold configure_logging. rewrite Hown.
  assert (match logging_dictConfig c with
          | Some d => if dict_is_empty d then default_dictConfig upper c else d
          | None => default_dictConfig upper c
          end = default_dictConfig upper c) as ->.
  { unfold uses_own_dict in Hown. destruct (logging_dictConfig c) as [d0|]; [|done].
    by destruct (dict_is_empty d0). }
  unfold default_dictConfig. rewrite run_steps_complete. cbn [fst snd].
  rewrite apply_dictConfig_complete. cbn [app].
  destruct (handlers_list c) as [|x l] eqn:Hl; [done|]. rewrite <- Hl.
  intros [= <-]. cbn. eexists _, _, _. split_and!; try done.
  - intros n. rewrite add_handlers_lookup, lookup_empty.
    split; [intros [?|[? ?]]; done | by left].
  - intros lg. unfold add_loggers. rewrite fold_insert_lookup, lookup_empty.
    case_decide; split; try done; try (by eexists); by intros [? ?].
  - intros lg e. unfold add_loggers. rewrite fold_insert_lookup, lookup_empty.
    case_decide; congruence.
  - by destruct (logging_loggers c).
Qed.

Lemma run_steps_no_root_handlers c d :
  root_handlers_of d = None →
  root_handlers_of (run_steps (logging_steps upper c) d).1 = None.
Proof.
  set (kind := λ st : DictConfig → KeyError + DictConfig,
         (∃ n, st = root_handlers_append n)
         ∨ (∃ n e, st = handlers_setitem n e)
         ∨ (∃ n e, st = loggers_setitem n e)).
  assert (∀ st d0 d', kind st → root_handlers_of d0 = None → st d0 = inr d' →
                      root_handlers_of d' = None) as Hstep.
  { intros st d0 d' [(n & ->)|[(n & e & ->)|(n & e & ->)]] Hnone.
    - unfold root_handlers_append, root_handlers_of in *.
      destruct (dc_root d0) as [r|]; [|done]. by rewrite Hnone.
    - unfold handlers_setitem. destruct (dc_handlers d0); [|done].
      by intros [= <-].
    - unfold loggers_setitem. destruct (dc_loggers d0); [|done].
      by intros [= <-]. }
  assert (Forall kind (logging_steps upper c)) as Hall.
  { unfold logging_steps, kind. rewrite !Forall_app. split_and!.
    - destruct (str_truthy _); [|constructor].
      constructor; [left; eauto|]. constructor; [right; left; eauto | constructor].
    - destruct (logging_to_console c); [|constructor].
      constructor; [left; eauto|]. constructor; [right; left; eauto | constructor].
    - apply Forall_forall. intros st (lg & <- & _)%list_elem_of_In%in_map_iff.
      right; right; eauto. }
  revert d. induction Hall as [|st sts Hst _ IH]; intros d Hd; [done|].
  cbn. destruct (st d) as [e|d'] eqn:Hsd; [done|].
  apply IH. by eapply Hstep.
Qed.

(** X3.  A dict supplied by the user that has no ["root"] entry, or whose
    root has no ["handlers"] entry, can never be applied: whatever else the
    configuration says, [configure_logging] raises a [KeyError]. *)
Theorem configure_logging_incomplete (c : LoggingConfig) (d : DictConfig) :
  logging_dictConfig c = Some d →
  dict_is_empty d = false →
  root_handlers_of d = None →
  ∃ key, (configure_logging upper c).2 = inl (MkKeyError key).
Proof.
  intros Hd Hne Hnone. unfold configure_logging. rewrite Hd, Hne.
  pose proof (run_steps_no_root_handlers c d Hnone) as Hafter.
  destruct (run_steps (logging_steps upper c) d) as [d' [[key]|]]; cbn [fst snd] in *.
  - by exists key.
  - unfold apply_dictConfig, root_handlers_of in *.
    destruct (dc_root d') as [r|]; [|by eexists]. rewrite Hafter. by eexists.
Qed.

(** One call on a configuration whose own dict has the keys the method goes
    through. *)
Lemma configure_logging_own c v del f hm lm lvl hs fmt :
  logging_dictConfig c
  = Some (mkDictConfig v del f (Some hm) (Some lm)
            (Some (mkRootConfig lvl (Some hs) fmt))) →
  let d' := mkDictConfig v del f (Some (add_handlers c hm))
              (Some (add_loggers upper c lm))
              (Some (mkRootConfig lvl (Some (hs ++ handlers_list c)%list) fmt)) in
  configure_logging upper c
  = (mkLoggingConfig (Some d') (logging_format c) (logging_loggers c)
                     (logging_level c) (logging_file c) (logging_to_console c),
     inr (match (hs ++ handlers_list c)%list with
          | [] => None
          | _ => Some d'
          end)).
Proof.
  intros Hd d'. unfold configure_logging, uses_own_dict. rewrite Hd.
  cbn [dict_is_empty dc_version dc_disable_existing_loggers dc_formatters
       dc_handlers dc_loggers dc_root negb].
  assert (dict_is_empty (mkDictConfig v del f (Some hm) (Some lm)
            (Some (mkRootConfig lvl (Some hs) fmt))) = false) as ->.
  { by destruct v, del, f. }
  rewrite run_steps_complete. cbn [negb]. by rewrite apply_dictConfig_complete.
Qed.

(** X4.  A dict supplied by the user, with the keys the method goes
    through, is written to in place: after [n] calls on the same
    configuration the names under its root are the original ones followed by
    [n] copies of the handler names, and none of these calls, nor the next
    one, raises a [KeyError].  (What [logging.config.dictConfig] makes of the
    dict it is handed is not part of the model.) *)
Theorem configure_logging_accumulates (c : LoggingConfig) (d : DictConfig)
    (hs : list string) (n : nat) :
  logging_dictConfig c = Some d →
  root_handlers_of d = Some hs →
  is_Some (dc_handlers d) →
  is_Some (dc_loggers d) →
  (∃ d', logging_dictConfig (configure_logging_times upper n c) = Some d'
         ∧ root_handlers_of d'
           = Some (hs ++ concat (replicate n (handlers_list c)))%list)
  ∧ ∃ applied,
      (configure_logging upper (configure_logging_times upper n c)).2 = inr applied.
Proof.
  intros Hd Hr [hm Hhm] [lm Hlm].
  destruct d as [v del f hm0 lm0 r0]. cbn in Hhm, Hlm, Hr. subst hm0 lm0.
  unfold root_handlers_of in Hr. cbn in Hr.
  destruct r0 as [[lvl hs0 fmt]|]; [|done]. cbn in Hr. subst hs0.
  assert (∃ hm' lm' ,
            configure_logging_times upper n c
            = mkLoggingConfig
                (Some (mkDictConfig v del f (Some hm') (Some lm')
                   (Some (mkRootConfig lvl
                      (Some (hs ++ concat (replicate n (handlers_list c)))%list)
                      fmt))))
                (logging_format c) (logging_loggers c) (logging_level c)
                (logging_file c) (logging_to_console c)) as (hm' & lm' & Hn).
  { induction n as [|n (hm' & lm' & IH)].
    - exists hm, lm. cbn. rewrite app_nil_r. by destruct c; cbn in *; subst.
    - unfold configure_logging_times in *. rewrite Nat.iter_succ, IH.
      erewrite configure_logging_own by done. cbn [fst].
      eexists _, _. f_equal. do 3 f_equal.
      rewrite <- app_assoc. do 2 f_equal.
      change (S n) with (1 + n)%nat.
      replace (1 + n)%nat with (n + 1)%nat by lia.
      rewrite replicate_add, concat_app. cbn. by rewrite app_nil_r. }
  split.
  - eexists. by rewrite Hn.
  - rewrite Hn. erewrite configure_logging_own by done. by eexists.
Qed.

Lemma logging_steps_writes c : Forall is_dict_write (logging_steps upper c).
Proof.
  unfold logging_steps, is_dict_write. rewrite !Forall_app. split_and!.
  - destruct (str_truthy _); [|constructor].
    constructor; [left; eauto|]. constructor; [right; left; eauto | constructor].
  - destruct (logging_to_console c); [|constructor].
    constructor; [left; eauto|]. constructor; [right; left; eauto | constructor].
  - apply Forall_forall. intros st (lg & <- & _)%list_elem_of_In%in_map_iff.
    right; right; eauto.
Qed.

(** A statement that goes through leaves the dict with the keys it had, and
    goes through on any dict with those keys. *)
Lemma dict_write_keys st d d' e :
  is_dict_write st → st d = inr d' → keys_present e = keys_present d →
  keys_present d' = keys_present d ∧ ∃ e', st e = inr e'.
Proof.
  unfold keys_present, root_handlers_of.
  intros [(n & ->)|[(n & x & ->)|(n & x & ->)]] Hd [= Hr Hh Hl].
  - unfold root_handlers_append in *.
    destruct (dc_root d) as [[lvl [hs|] fmt]|]; try done. cbn in *.
    injection Hd as <-. cbn. split; [done|].
    destruct (dc_root e) as [[lvl' [hs'|] fmt']|]; cbn in *;
      first [discriminate Hr | by eexists].
  - unfold handlers_setitem in *.
    destruct (dc_handlers d) as [m|]; [|done]. injection Hd as <-. cbn.
    split; [done|].
    destruct (dc_handlers e) as [m'|]; cbn in *;
      first [discriminate Hh | by eexists].
  - unfold loggers_setitem in *.
    destruct (dc_loggers d) as [m|]; [|done]. injection Hd as <-. cbn.
    split; [done|].
    destruct (dc_loggers e) as [m'|]; cbn in *;
      first [discriminate Hl | by eexists].
Qed.

Lemma run_steps_keys steps d d' e :
  Forall is_dict_write steps →
  run_steps steps d = (d', None) → keys_present e = keys_present d →
  keys_present d' = keys_present d
  ∧ ∃ e', run_steps steps e = (e', None) ∧ keys_present e' = keys_present d.
Proof.
  intros Hall. revert d e. induction Hall as [|st steps Hst _ IH]; intros d e.
  - cbn. intros [= <-] He. split; [done|]. by exists e.
  - cbn. destruct (st d) as [err|d1] eqn:Hd; [done|]. intros Hrun He.
    destruct (dict_write_keys st d d1 e Hst Hd He) as (Hk1 & e1 & He1).
    rewrite He1.
    assert (keys_present e1 = keys_present d1) as Hk.
    { destruct (dict_write_keys st e e1 e Hst He1 eq_refl) as (Hke & _).
      congruence. }
    destruct (IH d1 e1 Hrun Hk) as (Hk' & e' & Hrun' & Hke').
    split; [congruence|]. exists e'. split; [done | congruence].
Qed.

Lemma apply_dictConfig_keys d e a :
  apply_dictConfig d = inr a → keys_present e = keys_present d →
  dict_is_empty e = false ∧ ∃ a', apply_dictConfig e = inr a'.
Proof.
  unfold apply_dictConfig, keys_present, root_handlers_of, dict_is_empty.
  destruct (dc_root d) as [[lvl [hs|] fmt]|]; try done. intros _ [= Hr _ _].
  cbn in Hr. apply bool_decide_eq_true in Hr as [hs' Hr].
  destruct (dc_root e) as [[lvl' [hs0|] fmt']|]; try done. split.
  - by destruct (dc_version e), (dc_disable_existing_loggers e),
      (dc_formatters e), (dc_handlers e), (dc_loggers e).
  - destruct hs0; by eexists.
Qed.

(** One call that raises no [KeyError] is followed by one that raises
    none. *)
Lemma configure_logging_next c a :
  (configure_logging upper c).2 = inr a →
  ∃ a', (configure_logging upper (configure_logging upper c).1).2 = inr a'.
Proof.
  intros Hc. destruct (uses_own_dict c) eqn:Hown.
  - unfold configure_logging in *. rewrite Hown in *.
    unfold uses_own_dict in Hown.
    destruct (logging_dictConfig c) as [d|]; [|done].
    destruct (dict_is_empty d); [done|]. clear Hown.
    destruct (run_steps (logging_steps upper c) d) as [d1 [e|]] eqn:Hrun;
      cbn [fst snd] in *; [done|].
    destruct (apply_dictConfig_keys d1 d1 a Hc eq_refl) as (Hne & _).
    cbn [logging_dictConfig]. rewrite Hne.
    change (logging_steps upper (mkLoggingConfig _ _ _ _ _ _))
      with (logging_steps upper c).
    destruct (run_steps_keys _ d d1 d (logging_steps_writes c) Hrun eq_refl)
      as (Hk & _).
    destruct (run_steps_keys _ d d1 d1 (logging_steps_writes c) Hrun Hk)
      as (_ & d2 & Hrun2 & Hk2).
    rewrite Hrun2. cbn [fst snd].
    destruct (apply_dictConfig_keys d1 d2 a Hc) as (_ & a' & Ha'); [congruence|].
    by exists a'.
  - assert ((configure_logging upper c).1 = c) as ->; [|by exists a].
    unfold configure_logging. rewrite Hown.
    by destruct (run_steps _ _).
Qed.

(** X21.  Once a call of [configure_logging] has raised no [KeyError], no
    later call on the configuration it leaves raises one either, however
    many there are: the constructor call that every [filter] makes on the
    configuration of its session goes through the logging call as the
    first construction did. *)
Theorem configure_logging_again (c : LoggingConfig) (n : nat) :
  (∃ a, (configure_logging upper c).2 = inr a) →
  ∃ a, (configure_logging upper (configure_logging_times upper n c)).2 = inr a.
Proof.
  intros Hc. induction n as [|n [a IH]]; [done|].
  unfold configure_logging_times in *. rewrite Nat.iter_succ.
  by eapply configure_logging_next.
Qed.

End LoggingFacts.

(** X1 on the example: a log file and no dict of its own. *)
Lemma configure_logging_default_witness :
  (configure_logging example_upper (example_logging None)).1 = example_logging None.
Proof.
  by apply (configure_logging_default example_upper (example_logging None) eq_refl).
Defined.

(** X2 on the example: the applied dict defines the file handler its root and
    its logger name. *)
Lemma configure_logging_closed_witness :
  ∃ d r, (configure_logging example_upper (example_logging None)).2 = inr (Some d)
         ∧ dc_root d = Some r
         ∧ root_handlers r = Some ["info_file_handler"]
         ∧ root_level r = Some "CRITICAL".
Proof.
  destruct (configure_logging example_upper (example_logging None)).2
    as [e|[d|]] eqn:Hc; [by vm_compute in Hc | | by vm_compute in Hc].
  destruct (configure_logging_closed example_upper (example_logging None) d
              eq_refl Hc) as (hm & lm & r & _ & _ & Hr & Hh & _ & _ & _ & Hl).
  exists d, r. split_and!; [done | done | exact Hh | exact Hl].
Defined.

(** X3 on the example: a dict with handlers and loggers and no root. *)
Lemma configure_logging_incomplete_witness :
  ∃ key,
    (configure_logging example_upper
       (example_logging (Some (mkDictConfig (Some 1) None None (Some ∅) (Some ∅) None)))).2
    = inl (MkKeyError key).
Proof.
  apply (configure_logging_incomplete example_upper _
           (mkDictConfig (Some 1) None None (Some ∅) (Some ∅) None));
    reflexivity.
Defined.

(** X4 on the example: two calls leave the file handler named twice under the
    root of the user's dict. *)
Lemma configure_logging_accumulates_witness :
  ∃ d', logging_dictConfig
          (configure_logging_times example_upper 2
             (example_logging (Some example_user_dict))) = Some d'
        ∧ root_handlers_of d'
          = Some ["mine"; "info_file_handler"; "info_file_handler"].
Proof.
  apply (configure_logging_accumulates example_upper
           (example_logging (Some example_user_dict)) example_user_dict
           ["mine"] 2); [reflexivity | reflexivity | by eexists | by eexists].
Defined.

(** X21 on the example: the user's dict goes through a first call, and then
    through the fourth. *)
Lemma configure_logging_again_witness :
  ∃ a, (configure_logging example_upper
          (configure_logging_times example_upper 3
             (example_logging (Some example_user_dict)))).2 = inr a.
Proof.
  apply (configure_logging_again example_upper
           (example_logging (Some example_user_dict)) 3).
  eexists. vm_compute. reflexivity.
Defined.

(** ** More on run *)

Lemma heap_eq (a b : Heap) :
  host_store a = host_store b → data_store a = data_store b →
  inventory_store a = inventory_store b → nornir_store a = nornir_store b →
  a = b.
Proof. destruct a, b. cbn. by intros -> -> -> ->. Qed.

Lemma Nornir_run_outcome h s task nw roe on_good on_failed :
  out_outcome (Nornir_run h s task nw roe on_good on_failed)
  = let res := aggregated (run_scheduled h s task nw on_good on_failed) in
    if effective_raise_on_error roe (config (nornir_store h !!! s))
       && AggregatedResult_failed res
    then Raise (ExecutionError res)
    else Return res.
Proof.
  unfold Nornir_run, run_scheduled, AggregatedResult_raise_on_error. cbn zeta.
  destruct (effective_raise_on_error _ _); [|done].
  by destruct (AggregatedResult_failed _).
Qed.

Lemma run_scheduled_nil h s task nw on_good on_failed :
  session_run_on h s on_good on_failed = [] →
  aggregated (run_scheduled h s task nw on_good on_failed) = []
  ∧ scheduled_hosts (run_scheduled h s task nw on_good on_failed) = host_store h.
Proof.
  intros Hnil. unfold run_scheduled. rewrite Hnil. by destruct (_ =? 1).
Qed.

Lemma lookup_total_None `{!Inhabited A} (m : gmap loc A) i :
  m !! i = None → m !!! i = inhabitant.
Proof. intros Hm. unfold lookup_total, map_lookup_total. by rewrite Hm. Qed.

Lemma set_failed_hosts_union_empty x : set_failed_hosts (λ f, f ∪ ∅) x = x.
Proof. destruct x. unfold set_failed_hosts. cbn. by rewrite union_empty_r_L. Qed.

(** X5.  With both flags off the working list is empty; and whenever the
    working list is empty (both flags off, an empty inventory, or a retry
    with nothing failed), [run] returns the empty result without raising,
    whatever the policy, and leaves the whole store as it was. *)
Theorem run_nothing_selected (h : Heap) (s : loc) (task : work_function)
    (num_workers_arg : option Z) (raise_on_error_arg : option bool)
    (on_good on_failed : bool) :
  session_run_on h s on_good on_failed = [] →
  let o := Nornir_run h s task num_workers_arg raise_on_error_arg
                      on_good on_failed in
  session_run_on h s false false = []
  ∧ out_outcome o = Return []
  ∧ out_heap o = h.
Proof.
  intros Hnil o.
  destruct (run_scheduled_nil h s task num_workers_arg on_good on_failed Hnil)
    as [Hres Hhosts].
  split_and!; [done | |].
  - subst o. rewrite Nornir_run_outcome. cbn zeta. rewrite Hres. cbn.
    by rewrite andb_false_r.
  - subst o. apply heap_eq.
    + by rewrite Nornir_run_host_store.
    + rewrite Nornir_run_data_store. destruct (effective_raise_on_error _ _); [done|].
      unfold newly_failed. rewrite Hres. cbn.
      apply alter_id. intros x _. apply set_failed_hosts_union_empty.
    + apply Nornir_run_inventory_store.
    + apply Nornir_run_nornir_store.
Qed.

(** X5 on the example: both flags off. *)
Lemma run_nothing_selected_witness :
  out_heap (Nornir_run (example_heap {["A"]} example_config) 1%positive fails_on_B
                       None (Some true) false false)
  = example_heap {["A"]} example_config.
Proof.
  by apply (run_nothing_selected (example_heap {["A"]} example_config) 1%positive
              fails_on_B None (Some true) false false eq_refl).
Defined.

Lemma failed_hosts_keys_subseteq (r : AggregatedResult) :
  dict_keys (AggregatedResult_failed_hosts r) ⊆ dict_keys r.
Proof.
  unfold dict_keys, AggregatedResult_failed_hosts.
  intros k ([k' v] & -> & Hin)%list_elem_of_fmap.
  apply list_elem_of_filter in Hin as [_ Hin].
  apply list_elem_of_fmap. by exists (k', v).
Qed.

Lemma run_scheduled_keys h s task nw on_good on_failed :
  inventory_wf (host_store h) (hosts (session_inventory h s)) →
  dict_keys (aggregated (run_scheduled h s task nw on_good on_failed))
  = (selected_items on_good on_failed (hosts (session_inventory h s))
                    (session_failed_hosts h s)).*1.
Proof.
  intros Hwf. rewrite run_scheduled_result by done.
  unfold dict_keys. rewrite <- list_fmap_compose.
  unfold session_run_on. by rewrite <- (run_on_names _ _ _ _ _ Hwf).
Qed.

(** X6.  Over a well-formed inventory a run records only names of its own
    working list: whatever the arguments, the failed set afterwards holds
    nothing beyond the failed set before and the keys of the inventory
    targets that were selected. *)
Theorem run_records_selected_only (h : Heap) (s : loc) (task : work_function)
    (num_workers_arg : option Z) (raise_on_error_arg : option bool)
    (on_good on_failed : bool) :
  inventory_wf (host_store h) (hosts (session_inventory h s)) →
  let o := Nornir_run h s task num_workers_arg raise_on_error_arg
                      on_good on_failed in
  ∀ n, n ∈ session_failed_hosts (out_heap o) s →
       n ∈ session_failed_hosts h s
       ∨ n ∈ (selected_items on_good on_failed (hosts (session_inventory h s))
                             (session_failed_hosts h s)).*1.
Proof.
  intros Hwf o n. subst o. unfold session_failed_hosts at 1, session_data.
  rewrite Nornir_run_data_store, Nornir_run_nornir_store.
  destruct (effective_raise_on_error _ _); [by left|].
  rewrite lookup_total_alter.
  rewrite decide_True by done.
  destruct (data_store h !! data (nornir_store h !!! s)) as [x|] eqn:Hx; cbn.
  - intros [Hold|Hnew]%elem_of_union.
    + left. unfold session_failed_hosts, session_data.
      by rewrite (lookup_total_correct _ _ _ Hx).
    + right. unfold newly_failed in Hnew. apply elem_of_list_to_set in Hnew.
      apply failed_hosts_keys_subseteq in Hnew.
      by rewrite run_scheduled_keys in Hnew by done.
  - intros Hin. by apply elem_of_empty in Hin.
Qed.

(** X6 on the example: A was failed, B fails now, nothing else is recorded. *)
Lemma run_records_selected_only_witness :
  let h := example_heap {["A"]} example_config in
  "B" ∈ session_failed_hosts h 1%positive
  ∨ "B" ∈ (selected_items true false (hosts (session_inventory h 1%positive))
                          (session_failed_hosts h 1%positive)).*1.
Proof.
  intros h.
  apply (run_records_selected_only h 1%positive fails_on_B None None true false).
  - apply (bool_decide_unpack _). vm_compute. exact I.
  - apply (bool_decide_unpack _). vm_compute. exact I.
Defined.

(** X7.  A retry (only [on_failed]) over a well-formed inventory leaves the
    failed set exactly as it was, whether the retried targets succeed or
    fail again and whatever the policy: nothing is added, nothing is taken
    out. *)
Theorem run_retry_keeps_failed_set (h : Heap) (s : loc) (task : work_function)
    (num_workers_arg : option Z) (raise_on_error_arg : option bool) :
  inventory_wf (host_store h) (hosts (session_inventory h s)) →
  let o := Nornir_run h s task num_workers_arg raise_on_error_arg false true in
  session_failed_hosts (out_heap o) s = session_failed_hosts h s.
Proof.
  intros Hwf o. subst o. unfold session_failed_hosts at 1, session_data.
  rewrite Nornir_run_data_store, Nornir_run_nornir_store.
  destruct (effective_raise_on_error _ _); [done|].
  rewrite lookup_total_alter, decide_True by done.
  destruct (data_store h !! data (nornir_store h !!! s)) as [x|] eqn:Hx; cbn.
  - unfold session_failed_hosts, session_data.
    rewrite (lookup_total_correct _ _ _ Hx).
    apply set_eq. intros n. rewrite elem_of_union. split; [|by left].
    intros [Hold|Hnew]; [done|].
    unfold newly_failed in Hnew. apply elem_of_list_to_set in Hnew.
    apply failed_hosts_keys_subseteq in Hnew.
    rewrite run_scheduled_keys in Hnew by done.
    unfold selected_items, failed_items in Hnew. cbn in Hnew.
    apply list_elem_of_fmap in Hnew as ([n' l] & -> & Hin).
    apply list_elem_of_filter in Hin as [Hin _]. cbn in Hin.
    unfold session_failed_hosts, session_data in Hin.
    by rewrite (lookup_total_correct _ _ _ Hx) in Hin.
  - unfold session_failed_hosts, session_data.
    by rewrite (lookup_total_None _ _ Hx).
Qed.

(** X7 on the example: B is retried, succeeds, and is still failed. *)
Lemma run_retry_keeps_failed_set_witness :
  session_failed_hosts
    (out_heap (Nornir_run (example_heap {["B"]} example_config) 1%positive
                          always_ok None None false true)) 1%positive
  = session_failed_hosts (example_heap {["B"]} example_config) 1%positive.
Proof.
  apply (run_retry_keeps_failed_set (example_heap {["B"]} example_config) 1%positive
           always_ok None None).
  apply (bool_decide_unpack _). vm_compute. exact I.
Defined.

(** ** The constructor, InitNornir and filter *)

Section ConstructorFacts.

Variable plugins_available_connections : list string.
Variable default_config : Config.
Variable inventory_assign_nornir : option loc → loc → option loc.
Variable upper : string → string.

Abbreviation init_ :=
  (Nornir_init plugins_available_connections default_config
     inventory_assign_nornir).
Abbreviation InitNornir_ :=
  (InitNornir plugins_available_connections default_config
     inventory_assign_nornir upper).
Abbreviation filter_ :=
  (Nornir_filter plugins_available_connections default_config
     inventory_assign_nornir).

(** X8.  A session constructed without a [Data] object gets a new one, with
    an empty failed set, the given dry-run flag and the registry given or the
    default one; the session is a new object too, and every [Data] object
    and every session already in the store is left as it was. *)
Theorem Nornir_init_fresh_data (h : Heap) (i : loc) (dr : bool)
    (c : option Config) (a : option (list string)) :
  let r := init_ h i dr c a None in
  (data (nornir_store r.1 !!! r.2) ∉ dom (data_store h))
  ∧ (r.2 ∉ dom (nornir_store h))
  ∧ session_data r.1 r.2
    = mkData ∅ (default plugins_available_connections a) (Some dr)
  ∧ (∀ d0 x, data_store h !! d0 = Some x → data_store r.1 !! d0 = Some x)
  ∧ (∀ s0 x, nornir_store h !! s0 = Some x → nornir_store r.1 !! s0 = Some x).
Proof.
  intros r. subst r. unfold Nornir_init, session_data.
  set (self := fresh (dom (nornir_store h))).
  set (d := fresh (dom (data_store h))).
  assert (∀ d0 x, data_store h !! d0 = Some x → d ≠ d0) as Hd.
  { intros d0 x Hx <-. apply (is_fresh (dom (data_store h))).
    apply elem_of_dom. by eexists. }
  assert (∀ s0 x, nornir_store h !! s0 = Some x → self ≠ s0) as Hs.
  { intros s0 x Hx <-. apply (is_fresh (dom (nornir_store h))).
    apply elem_of_dom. by eexists. }
  destruct a as [a|]; cbn; rewrite !lookup_total_insert_eq; cbn.
  - split_and!; [apply is_fresh | apply is_fresh | | |].
    + rewrite !lookup_total_alter_eq, !lookup_alter_eq, lookup_insert_eq. done.
    + intros d0 x Hx. rewrite !lookup_alter_ne, lookup_insert_ne by eauto. done.
    + intros s0 x Hx. rewrite lookup_insert_ne by eauto. done.
  - split_and!; [apply is_fresh | apply is_fresh | | |].
    + rewrite !lookup_total_alter_eq, lookup_insert_eq. done.
    + intros d0 x Hx. rewrite !lookup_alter_ne, lookup_insert_ne by eauto. done.
    + intros s0 x Hx. rewrite lookup_insert_ne by eauto. done.
Qed.

(** X9.  A session constructed on an existing [Data] object holds that
    object, and the construction writes through it: every session sharing
    the object now reads the new dry-run flag, and the new registry when one
    is given, while its failed set is kept. *)
Theorem Nornir_init_shared_data (h : Heap) (i : loc) (dr : bool)
    (c : option Config) (a : option (list string)) (d s' : loc) :
  is_Some (data_store h !! d) →
  is_Some (nornir_store h !! s') →
  data (nornir_store h !!! s') = d →
  let r := init_ h i dr c a (Some d) in
  data (nornir_store r.1 !!! r.2) = d
  ∧ Nornir_dry_run r.1 s' = Some dr
  ∧ session_failed_hosts r.1 s' = session_failed_hosts h s'
  ∧ available_connections (session_data r.1 s')
    = default (available_connections (session_data h s')) a.
Proof.
  intros [x Hx] [y Hy] Hshare r. subst r.
  unfold Nornir_init, Nornir_dry_run, session_failed_hosts, session_data.
  set (self := fresh (dom (nornir_store h))).
  assert (self ≠ s') as Hne.
  { intros <-. apply (is_fresh (dom (nornir_store h))).
    apply elem_of_dom. by eexists. }
  rewrite Hshare, (lookup_total_correct _ _ _ Hx).
  destruct a as [a|]; cbn; rewrite lookup_total_insert_eq; cbn;
    rewrite lookup_total_insert_ne by done; rewrite Hshare;
    rewrite ?lookup_total_alter_eq, ?lookup_alter_eq, Hx; done.
Qed.

(** X10.  Whatever session is constructed on an inventory of the store, it
    is that inventory the new session holds and that inventory whose
    back-reference is assigned the new session (so that it reads what the
    inventory makes of the assignment: the new session, for an inventory
    that stores what it is given); its targets are untouched and every other
    inventory is left as it was. *)
Theorem Nornir_init_takes_inventory (h : Heap) (i : loc) (dr : bool)
    (c : option Config) (a : option (list string)) (d : option loc) :
  is_Some (inventory_store h !! i) →
  let r := init_ h i dr c a d in
  inventory (nornir_store r.1 !!! r.2) = i
  ∧ nornir (inventory_store r.1 !!! i)
    = inventory_assign_nornir (nornir (inventory_store h !!! i)) r.2
  ∧ hosts (inventory_store r.1 !!! i) = hosts (inventory_store h !!! i)
  ∧ (∀ i0, i0 ≠ i → inventory_store r.1 !! i0 = inventory_store h !! i0).
Proof.
  intros [x Hx] r. subst r. unfold Nornir_init.
  rewrite (lookup_total_correct _ _ _ Hx).
  destruct d as [d|], a as [a|]; cbn; rewrite lookup_total_insert_eq; cbn;
    rewrite lookup_total_alter_eq, Hx; cbn;
    (split_and!; [done | done | done |]);
    intros i0 Hi0; by rewrite lookup_alter_ne.
Qed.

(** X11.  [InitNornir] raises the [KeyError] of [configure_logging] when
    that call raises one, and otherwise returns the session it constructs: a
    new session of the store over a new inventory holding the targets built,
    to whose back-reference the session was assigned, with the configuration
    read, and with a new [Data] object that no earlier session can share, its
    failed set empty and its dry-run flag the one given.  Either way the
    logging attributes are left as [configure_logging] leaves them. *)
Theorem InitNornir_session (h : Heap) (conf : Config) (logging : LoggingConfig)
    (items : list (string * loc)) (inventory_nornir : option loc) (dr : bool) :
  let r := InitNornir_ h conf logging items inventory_nornir dr in
  r.1.2 = (configure_logging upper logging).1
  ∧ match (configure_logging upper logging).2 with
    | inl e => r.2 = inl e
    | inr _ =>
        ∃ s, r.2 = inr s
          ∧ session_valid r.1.1 s
          ∧ (s ∉ dom (nornir_store h))
          ∧ (inventory (nornir_store r.1.1 !!! s) ∉ dom (inventory_store h))
          ∧ (data (nornir_store r.1.1 !!! s) ∉ dom (data_store h))
          ∧ config (nornir_store r.1.1 !!! s) = conf
          ∧ session_inventory r.1.1 s
            = mkInventory items (inventory_assign_nornir inventory_nornir s)
          ∧ session_data r.1.1 s
            = mkData ∅ plugins_available_connections (Some dr)
    end.
Proof.
  intros r. subst r. unfold InitNornir, Nornir_new.
  destruct (configure_logging upper logging) as [logging' [e|applied]];
    cbn [fst snd]; [done|].
  split; [done|].
  set (inv := fresh (dom (inventory_store h))).
  set (h1 := set_inventory_store _ h).
  assert (is_Some (inventory_store h1 !! inv)) as Hinv.
  { subst h1. cbn. rewrite lookup_insert_eq. by eexists. }
  eexists. split; [done|].
  split; [by apply Nornir_init_valid|].
  unfold Nornir_init, session_inventory, session_data. cbn.
  rewrite !lookup_total_insert_eq. cbn.
  split_and!; [apply is_fresh | apply is_fresh | apply is_fresh | done | |].
  - by rewrite lookup_total_alter_eq, lookup_insert_eq.
  - by rewrite lookup_total_alter_eq, lookup_insert_eq.
Qed.


End ConstructorFacts.

(** X9 on the example: a second session on the [Data] object of the first,
    constructed with dry-run on. *)
Lemma Nornir_init_shared_data_witness :
  Nornir_dry_run
    (Nornir_init [] example_config assign_kept (example_heap {["A"]} example_config)
                 1%positive true None None (Some 1%positive)).1 1%positive
  = Some true.
Proof.
  apply (Nornir_init_shared_data [] example_config assign_kept
           (example_heap {["A"]} example_config) 1%positive true None None
           1%positive 1%positive); [by eexists | by eexists | reflexivity].
Defined.

(** X10 on the example: a second session on the inventory of the first,
    with an inventory that keeps the back-reference it has. *)
Lemma Nornir_init_takes_inventory_witness :
  let h := example_heap ∅ example_config in
  let r := Nornir_init [] example_config assign_kept h 1%positive false
                       None None None in
  nornir (inventory_store r.1 !!! 1%positive)
  = assign_kept (nornir (inventory_store h !!! 1%positive)) r.2.
Proof.
  intros h r.
  apply (Nornir_init_takes_inventory [] example_config assign_kept h 1%positive
           false None None None).
  by eexists.
Defined.


(** ** Invariants of the calls *)

Lemma serial_loop_name task targets (hs : gmap loc Host) acc l :
  name ((serial_loop task targets hs acc).1 !!! l) = name (hs !!! l).
Proof.
  revert hs acc. induction targets as [|t targets IH]; intros hs acc; [done|].
  cbn [serial_loop].
  destruct (Task_start task (hs !!! t)) as [x r] eqn:Hs. rewrite IH.
  destruct (decide (t = l)) as [->|Hne].
  - rewrite lookup_total_insert_eq.
    by rewrite <- (Task_start_name task (hs !!! l)), Hs.
  - by rewrite lookup_total_insert_ne.
Qed.

Lemma collect_name task targets (hs0 hs : gmap loc Host) acc l :
  (∀ t, name (hs !!! t) = name (hs0 !!! t)) →
  name ((collect (submit task targets hs0) hs acc).1 !!! l) = name (hs0 !!! l).
Proof.
  revert hs acc. induction targets as [|t targets IH]; intros hs acc Hn; [apply Hn|].
  cbn [submit map collect].
  destruct (Task_start task (hs0 !!! t)) as [x r] eqn:Hs.
  apply IH. intros t'. destruct (decide (t = t')) as [->|Hne].
  - rewrite lookup_total_insert_eq.
    by rewrite <- (Task_start_name task (hs0 !!! t')), Hs.
  - by rewrite lookup_total_insert_ne.
Qed.

(** A run changes the name of no host object. *)
Lemma Nornir_run_host_names h s task nw roe on_good on_failed l :
  name (host_store (out_heap (Nornir_run h s task nw roe on_good on_failed)) !!! l)
  = name (host_store h !!! l).
Proof.
  rewrite Nornir_run_host_store. unfold run_scheduled. destruct (_ =? 1).
  - unfold run_serial.
    pose proof (serial_loop_name task (session_run_on h s on_good on_failed)
                  (host_store h) [] l) as H.
    by destruct (serial_loop _ _ _ _).
  - unfold run_parallel.
    pose proof (collect_name task (session_run_on h s on_good on_failed)
                  (host_store h) (host_store h) [] l (λ _, eq_refl)) as H.
    by destruct (collect _ _ _).
Qed.

Section InvariantFacts.

Variable plugins_available_connections : list string.
Variable default_config : Config.
Variable inventory_assign_nornir : option loc → loc → option loc.

Abbreviation filter_ :=
  (Nornir_filter plugins_available_connections default_config
     inventory_assign_nornir).
Abbreviation apply_op_ :=
  (apply_op plugins_available_connections default_config
     inventory_assign_nornir).
Abbreviation apply_ops_ :=
  (apply_ops plugins_available_connections default_config
     inventory_assign_nornir).

Lemma apply_op_host_names h op l :
  name (host_store (apply_op_ h op) !!! l) = name (host_store h !!! l).
Proof.
  destruct op as [s task nw roe g f|s criteria]; cbn.
  - apply Nornir_run_host_names.
  - destruct (filter_ h s criteria) as [[h' b]|] eqn:Hf; [|done].
    destruct (Nornir_filter_stores _ _ _ _ _ _ _ _ Hf) as (_ & -> & _). done.
Qed.

Lemma apply_ops_host_names h ops l :
  name (host_store (apply_ops_ h ops) !!! l) = name (host_store h !!! l).
Proof.
  revert h. induction ops as [|op ops IH]; intros h; [done|].
  cbn. unfold apply_ops in IH. by rewrite IH, apply_op_host_names.
Qed.

(** X13.  Being a session of the store is kept by every call: after any
    sequence of runs and filter calls the session is still one, and the
    clone a filter call returns is one too. *)
Theorem session_valid_invariant (h : Heap) (s : loc) (ops : list Op) :
  session_valid h s →
  session_valid (apply_ops_ h ops) s
  ∧ ∀ criteria h' b, filter_ h s criteria = Some (h', b) → session_valid h' b.
Proof.
  intros Hv. split.
  - by destruct (heap_extends_session h (apply_ops_ h ops) s
                   (apply_ops_extends _ _ _ h ops) Hv) as [? _].
  - intros criteria h' b Hf. destruct Hv as (Hs & Hd & Hi & [dr Hdr]).
    destruct (Nornir_filter_stores _ _ _ _ _ _ _ _ Hf)
      as (_ & _ & (dr' & Hdr' & Hdata) & Hinv & Hnor).
    cbn zeta in Hinv, Hnor.
    unfold session_valid, session_data.
    rewrite Hnor, lookup_insert_eq, lookup_total_insert_eq. cbn.
    rewrite Hinv, lookup_insert_eq, Hdata.
    split_and!.
    + by eexists.
    + destruct Hd as [x Hx]. rewrite lookup_alter_eq, Hx. by eexists.
    + by eexists.
    + rewrite lookup_total_alter_Some by done. cbn. by eexists.
Qed.

(** X14.  A well-formed inventory stays well-formed: after any sequence of
    runs and filter calls the targets of a session of the store still have
    distinct keys and every host object still carries its key as its
    name. *)
Theorem inventory_wf_invariant (h : Heap) (s : loc) (ops : list Op) :
  session_valid h s →
  inventory_wf (host_store h) (hosts (session_inventory h s)) →
  inventory_wf (host_store (apply_ops_ h ops))
               (hosts (session_inventory (apply_ops_ h ops) s)).
Proof.
  intros Hv [Hnd Hn].
  destruct (heap_extends_session h (apply_ops_ h ops) s
              (apply_ops_extends _ _ _ h ops) Hv) as (_ & _ & Hhosts & _).
  rewrite Hhosts. split; [done|].
  eapply Forall_impl; [exact Hn|]. intros item Hitem. cbn in *.
  by rewrite apply_ops_host_names.
Qed.

End InvariantFacts.

(** X13 on the example. *)
Lemma session_valid_invariant_witness :
  session_valid (apply_ops [] example_config assign_kept (example_heap ∅ example_config)
                           example_ops) 1%positive.
Proof.
  apply (session_valid_invariant [] example_config assign_kept (example_heap ∅ example_config)
           1%positive example_ops).
  apply example_heap_valid.
Defined.

(** X14 on the example. *)
Lemma inventory_wf_invariant_witness :
  let h := apply_ops [] example_config assign_kept (example_heap ∅ example_config) example_ops in
  inventory_wf (host_store h) (hosts (session_inventory h 1%positive)).
Proof.
  apply (inventory_wf_invariant [] example_config assign_kept (example_heap ∅ example_config)
           1%positive example_ops).
  - apply example_heap_valid.
  - apply example_heap_wf.
Defined.

(** ** recover_host and reset_failed_hosts *)

Lemma set_failed_hosts_id g x :
  g (failed_hosts x) = failed_hosts x → set_failed_hosts g x = x.
Proof. destruct x. unfold set_failed_hosts. cbn. by intros ->. Qed.

(** X15.  [recover_host] on a [Data] object of the store takes exactly that
    name out of the failed set of every session that shares the object and
    changes no other session's; on a name that is not in the set it raises
    nothing and leaves the whole store as it was. *)
Theorem recover_host_effect (h : Heap) (d : loc) (n : string) (s' : loc) :
  is_Some (data_store h !! d) →
  session_failed_hosts (recover_host h d n) s'
  = (if decide (data (nornir_store h !!! s') = d)
     then session_failed_hosts h s' ∖ {[n]}
     else session_failed_hosts h s')
  ∧ ((n ∉ failed_hosts (data_store h !!! d)) → recover_host h d n = h).
Proof.
  intros Hd. split.
  - unfold session_failed_hosts, session_data, recover_host. cbn.
    case_decide as Hs.
    + rewrite Hs. by rewrite lookup_total_alter_Some.
    + by rewrite lookup_total_alter_ne.
  - intros Hn. unfold recover_host. apply heap_eq; try done. cbn.
    apply alter_id. intros x Hx. apply set_failed_hosts_id.
    rewrite (lookup_total_correct _ _ _ Hx) in Hn. set_solver.
Qed.

(** X15 on the example: recovering B, which is failed, through the shared
    object. *)
Lemma recover_host_effect_witness :
  session_failed_hosts
    (recover_host (example_heap {["A"; "B"]} example_config) 1%positive "B")
    1%positive
  = session_failed_hosts (example_heap {["A"; "B"]} example_config) 1%positive
    ∖ {["B"]}.
Proof.
  apply (recover_host_effect (example_heap {["A"; "B"]} example_config)
           1%positive "B" 1%positive).
  by eexists.
Defined.

Lemma failed_items_names (hs : gmap loc Host) items (fs : gset string) n l :
  inventory_wf hs items → (n, l) ∈ items →
  l ∈ (failed_items items fs).*2 → n ∈ fs.
Proof.
  intros [_ Hn] Hin ([n' l'] & Heq & Hf)%list_elem_of_fmap. cbn in Heq. subst l'.
  apply list_elem_of_filter in Hf as [Hfs Hin']. cbn in Hfs.
  rewrite Forall_forall in Hn.
  pose proof (Hn _ Hin) as H1. pose proof (Hn _ Hin') as H2. cbn in H1, H2.
  congruence.
Qed.

(** X16.  After [recover_host] on its name, a target of a well-formed
    inventory is a good target again: it is in the working list of a default
    run (only [on_good]) and not in that of a retry (only [on_failed]). *)
Theorem recover_host_reschedules (h : Heap) (s : loc) (n : string) (l : loc) :
  session_valid h s →
  inventory_wf (host_store h) (hosts (session_inventory h s)) →
  (n, l) ∈ hosts (session_inventory h s) →
  let h' := recover_host h (data (nornir_store h !!! s)) n in
  l ∈ session_run_on h' s true false
  ∧ (l ∉ session_run_on h' s false true).
Proof.
  intros (Hs & Hd & Hi & _) Hwf Hin h'.
  assert (session_failed_hosts h' s = session_failed_hosts h s ∖ {[n]}) as Hfs.
  { subst h'. unfold session_failed_hosts, session_data, recover_host. cbn.
    by rewrite lookup_total_alter_Some. }
  assert (hosts (session_inventory h' s) = hosts (session_inventory h s)) as Hhosts
    by done.
  unfold session_run_on. rewrite Hfs, Hhosts, !select_run_on_items.
  unfold selected_items. cbn. rewrite app_nil_r. split.
  - apply list_elem_of_fmap. exists (n, l). split; [done|].
    apply list_elem_of_filter. split; [|done]. cbn. set_solver.
  - intros Hl.
    pose proof (failed_items_names _ _ _ _ _ Hwf Hin Hl) as Hn. set_solver.
Qed.

(** X16 on the example: B is failed and recovered. *)
Lemma recover_host_reschedules_witness :
  2%positive ∈ session_run_on
                 (recover_host (example_heap {["B"]} example_config) 1%positive "B")
                 1%positive true false.
Proof.
  apply (recover_host_reschedules (example_heap {["B"]} example_config)
           1%positive "B" 2%positive).
  - apply example_heap_valid.
  - apply example_heap_wf.
  - apply (bool_decide_unpack _). vm_compute. exact I.
Defined.

(** X17.  After [reset_failed_hosts] the failed set of a session of the
    store is empty, a default run (only [on_good]) works on every target of
    the inventory, in inventory order, and a retry (only [on_failed]) on
    none. *)
Theorem reset_failed_hosts_all_good (h : Heap) (s : loc) :
  session_valid h s →
  let h' := reset_failed_hosts h (data (nornir_store h !!! s)) in
  session_failed_hosts h' s = ∅
  ∧ session_run_on h' s true false = (hosts (session_inventory h s)).*2
  ∧ session_run_on h' s false true = [].
Proof.
  intros (Hs & Hd & Hi & _) h'.
  assert (session_failed_hosts h' s = ∅) as Hfs.
  { subst h'. unfold session_failed_hosts, session_data, reset_failed_hosts. cbn.
    by rewrite lookup_total_alter_Some. }
  assert (hosts (session_inventory h' s) = hosts (session_inventory h s)) as Hhosts
    by done.
  unfold session_run_on. rewrite Hfs, Hhosts, !select_run_on_items.
  unfold selected_items, good_items, failed_items. cbn. rewrite app_nil_r.
  split_and!; [done | |].
  - f_equal. clear Hhosts.
    induction (hosts (session_inventory h s)) as [|item items IH]; [done|].
    rewrite filter_cons. case_decide as Hc; [by rewrite IH | set_solver].
  - clear Hhosts.
    induction (hosts (session_inventory h s)) as [|item items IH]; [done|].
    rewrite filter_cons. case_decide as Hc; [|done].
    set_solver.
Qed.

(** X17 on the example: A and B failed, then reset. *)
Lemma reset_failed_hosts_all_good_witness :
  session_run_on
    (reset_failed_hosts (example_heap {["A"; "B"]} example_config) 1%positive)
    1%positive true false
  = [1%positive; 2%positive; 3%positive].
Proof.
  apply (reset_failed_hosts_all_good (example_heap {["A"; "B"]} example_config)
           1%positive).
  apply example_heap_valid.
Defined.

(** ** The registry of connection types *)

Lemma alter_failed_hosts_registry g d (m : gmap loc Data) d' :
  available_connections (alter (set_failed_hosts g) d m !!! d')
  = available_connections (m !!! d').
Proof.
  rewrite lookup_total_alter. case_decide as Hd; [|done]. subst d'.
  destruct (m !! d) as [x|] eqn:Hx; cbn.
  - by rewrite (lookup_total_correct _ _ _ Hx).
  - by rewrite (lookup_total_None _ _ Hx).
Qed.

(** X18.  What [get_connection_type] resolves, for any session and any
    name, is changed neither by a run (whatever its arguments and outcome)
    nor by [recover_host] nor by [reset_failed_hosts]; it is the name when
    the registry of the session's [Data] object holds it and a [KeyError]
    otherwise. *)
Theorem get_connection_type_stable (h : Heap) (s : loc) (task : work_function)
    (num_workers_arg : option Z) (raise_on_error_arg : option bool)
    (on_good on_failed : bool) (d : loc) (n : string)
    (s' : loc) (connection : string) :
  get_connection_type
    (out_heap (Nornir_run h s task num_workers_arg raise_on_error_arg
                          on_good on_failed)) s' connection
  = get_connection_type h s' connection
  ∧ get_connection_type (recover_host h d n) s' connection
    = get_connection_type h s' connection
  ∧ get_connection_type (reset_failed_hosts h d) s' connection
    = get_connection_type h s' connection
  ∧ (get_connection_type h s' connection = Some connection
     ↔ connection ∈ available_connections (session_data h s'))
  ∧ (get_connection_type h s' connection = None
     ↔ connection ∉ available_connections (session_data h s')).
Proof.
  unfold get_connection_type, session_data. split_and!.
  - rewrite Nornir_run_data_store, Nornir_run_nornir_store.
    destruct (effective_raise_on_error _ _); [done|].
    by rewrite alter_failed_hosts_registry.
  - unfold recover_host. cbn. by rewrite alter_failed_hosts_registry.
  - unfold reset_failed_hosts. cbn. by rewrite alter_failed_hosts_registry.
  - case_decide; naive_solver.
  - case_decide; naive_solver.
Qed.

(** ** close_connections and leaving a scope, further *)

Lemma serial_loop_other task targets (hs : gmap loc Host) acc l :
  l ∉ targets → (serial_loop task targets hs acc).1 !!! l = hs !!! l.
Proof.
  revert hs acc. induction targets as [|t targets IH]; intros hs acc Hl; [done|].
  cbn [serial_loop]. destruct (Task_start task (hs !!! t)) as [x r].
  rewrite IH by set_solver. rewrite lookup_total_insert_ne; [done | set_solver].
Qed.

Lemma collect_other task targets (hs0 hs : gmap loc Host) acc l :
  l ∉ targets → (collect (submit task targets hs0) hs acc).1 !!! l = hs !!! l.
Proof.
  revert hs acc. induction targets as [|t targets IH]; intros hs acc Hl; [done|].
  cbn [submit map collect]. destruct (Task_start task (hs0 !!! t)) as [x r].
  rewrite IH by set_solver. rewrite lookup_total_insert_ne; [done | set_solver].
Qed.

(** A run leaves the host objects outside its working list as they were. *)
Lemma Nornir_run_other_hosts h s task nw roe on_good on_failed l :
  l ∉ session_run_on h s on_good on_failed →
  host_store (out_heap (Nornir_run h s task nw roe on_good on_failed)) !!! l
  = host_store h !!! l.
Proof.
  intros Hl. rewrite Nornir_run_host_store. unfold run_scheduled.
  destruct (_ =? 1).
  - unfold run_serial.
    pose proof (serial_loop_other task _ (host_store h) [] l Hl) as H.
    by destruct (serial_loop _ _ _ _).
  - unfold run_parallel.
    pose proof (collect_other task _ (host_store h) (host_store h) [] l Hl) as H.
    by destruct (collect _ _ _).
Qed.

Lemma close_result_ok h s nw on_good on_failed :
  AggregatedResult_failed_hosts
    (aggregated (run_scheduled h s close_connections_task nw on_good on_failed))
  = [].
Proof.
  assert (Forall (λ kv, failed kv.2 = false)
            (aggregated (run_scheduled h s close_connections_task nw
                                       on_good on_failed))) as Hall.
  { unfold run_scheduled. destruct (_ =? 1).
    - unfold run_serial.
      pose proof (serial_loop_close_ok (session_run_on h s on_good on_failed)
                    (host_store h) [] (Forall_nil_2 _)) as H.
      by destruct (serial_loop _ _ _ _).
    - unfold run_parallel.
      pose proof (collect_close_ok (session_run_on h s on_good on_failed)
                    (host_store h) (host_store h) [] (Forall_nil_2 _)) as H.
      by destruct (collect _ _ _). }
  unfold AggregatedResult_failed_hosts.
  induction Hall as [|kv r Hkv _ IH]; [done|].
  rewrite filter_cons. case_decide; [congruence | done].
Qed.

(** X19.  [close_connections] with its default flags ([on_good] only) over
    a well-formed inventory closes the connections of the good targets and
    leaves the failed targets as they are, open connections included. *)
Theorem close_connections_default (h : Heap) (s : loc) (n : string) (l : loc) :
  inventory_wf (host_store h) (hosts (session_inventory h s)) →
  (n, l) ∈ hosts (session_inventory h s) →
  let r := Nornir_close_connections h s true false in
  (n ∉ session_failed_hosts h s → connections (host_store r.1 !!! l) = ∅)
  ∧ (n ∈ session_failed_hosts h s → host_store r.1 !!! l = host_store h !!! l).
Proof.
  intros Hwf Hin r. subst r. unfold Nornir_close_connections. cbn [fst].
  split.
  - intros Hgood.
    assert (l ∈ session_run_on h s true false) as Hl.
    { unfold session_run_on. rewrite select_run_on_items.
      apply list_elem_of_fmap. exists (n, l). split; [done|].
      unfold selected_items. cbn. rewrite app_nil_r.
      by apply list_elem_of_filter. }
    rewrite Nornir_run_host_store. unfold run_scheduled. destruct (_ =? 1).
    + unfold run_serial.
      pose proof (serial_loop_closes (session_run_on h s true false)
                    (host_store h) [] l (or_introl Hl)) as H.
      by destruct (serial_loop _ _ _ _).
    + unfold run_parallel.
      pose proof (collect_closes (session_run_on h s true false)
                    (host_store h) (host_store h) [] l (or_introl Hl)) as H.
      by destruct (collect _ _ _).
  - intros Hfailed. apply Nornir_run_other_hosts.
    unfold session_run_on. rewrite select_run_on_items.
    unfold selected_items. cbn. rewrite app_nil_r.
    intros ([n' l'] & Heq & Hg)%list_elem_of_fmap. cbn in Heq. subst l'.
    apply list_elem_of_filter in Hg as [Hg Hin']. cbn in Hg.
    destruct Hwf as [_ Hn]. rewrite Forall_forall in Hn.
    pose proof (Hn _ Hin) as H1. pose proof (Hn _ Hin') as H2. cbn in H1, H2.
    apply Hg. congruence.
Qed.

(** X19 on the example: B is failed and has a connection open; the default
    [close_connections] leaves it open. *)
Lemma close_connections_default_witness :
  let h := example_heap {["B"]} example_config in
  host_store (Nornir_close_connections h 1%positive true false).1 !!! 2%positive
  = host_store h !!! 2%positive.
Proof.
  intros h.
  apply (close_connections_default h 1%positive "B" 2%positive).
  - apply example_heap_wf.
  - apply (bool_decide_unpack _). vm_compute. exact I.
  - apply (bool_decide_unpack _). vm_compute. exact I.
Defined.

(** X20.  [close_connections], with any flags, and so leaving a scope,
    writes to host objects only: the failed sets and every other attribute
    of the [Data] objects, the sessions and the inventories are as before,
    and no host changes its name. *)
Theorem close_connections_frame (h : Heap) (s : loc) (on_good on_failed : bool)
    (exc : option string) :
  let r := Nornir_close_connections h s on_good on_failed in
  data_store r.1 = data_store h
  ∧ inventory_store r.1 = inventory_store h
  ∧ nornir_store r.1 = nornir_store h
  ∧ (∀ l, name (host_store r.1 !!! l) = name (host_store h !!! l))
  ∧ data_store (Nornir_exit h s exc).1 = data_store h.
Proof.
  assert (∀ g f, data_store (Nornir_close_connections h s g f).1 = data_store h)
    as Hdata.
  { intros g f. unfold Nornir_close_connections. cbn [fst].
    rewrite Nornir_run_data_store. destruct (effective_raise_on_error _ _); [done|].
    unfold newly_failed. rewrite close_result_ok. cbn.
    apply alter_id. intros x _. apply set_failed_hosts_union_empty. }
  intros r. subst r. split_and!.
  - apply Hdata.
  - unfold Nornir_close_connections. cbn [fst]. apply Nornir_run_inventory_store.
  - unfold Nornir_close_connections. cbn [fst]. apply Nornir_run_nornir_store.
  - intros l. unfold Nornir_close_connections. cbn [fst].
    apply Nornir_run_host_names.
  - unfold Nornir_exit. apply Hdata.
Qed.
